(** * Invicton-Labs/go-common: the DynamoDB-backed distributed lock

    A shallow embedding of [lock/distributed.go] and of the helpers it
    calls ([collections], [gensync], [dateutils], [numbers]), followed by
    the properties of the lock protocol.

    Conventions of the embedding:
    - Go integers are [Z] with their wrap-around written out ([wrap32],
      [wrap64]); a [time.Time] is the number of nanoseconds since the Unix
      epoch, a [time.Duration] a number of nanoseconds.
    - A Go [(value, err)] pair is a [Result]; a Go [error] that may be nil
      is an [option Error].  Stack traces and log output are not modelled,
      so [stackerr.Wrap] is the identity.
    - Everything the process shares is in a [World]: the wall clock, the
      lock table, the package-level counter map.  Code that touches it is a
      state-passing computation [M A].  What the outside decides (how much
      time passes before a clock read, whether an SDK call fails in
      transport) is scripted in the world and consumed in program order. *)

From Stdlib Require Import ZArith Lia Sorted Ascii.
From stdpp Require Import base numbers option list strings gmap fin_maps pretty.

Local Open Scope Z_scope.

(** ** Machine integers *)

Definition wrap32 (z : Z) : Z := (z + 2 ^ 31) mod 2 ^ 32 - 2 ^ 31.
Definition wrap64 (z : Z) : Z := (z + 2 ^ 63) mod 2 ^ 64 - 2 ^ 63.
Definition MaxInt32 : Z := 2 ^ 31 - 1.
Definition MinInt64 : Z := - 2 ^ 63.
Definition MaxInt64 : Z := 2 ^ 63 - 1.
Definition is_int64 (z : Z) : bool := (MinInt64 <=? z) && (z <=? MaxInt64).

(** ** Errors ([go-stackerr], [errors]) *)

Module stackerr.

Inductive Field : Type :=
| FString (s : string)
| FTime (t : Z)
| FBool (b : bool)
| FSlackLink (url text : string).

Inductive Error : Type :=
(** [*types.ConditionalCheckFailedException] of the DynamoDB SDK *)
| ConditionalCheckFailedException
(** any other error value made outside this repository (transport or
    service fault of an SDK call, [encoding/json], [context]) *)
| Foreign (msg : string)
(** [stackerr.Errorf] with its formatted message *)
| Errorf (msg : string)
(** [err.With(fields)] and [err.WithSingle(k, v)] *)
| With (e : Error) (fields : list (string * Field)).

Inductive Result (A : Type) : Type :=
| Ok (a : A)
| Err (e : Error).
Global Arguments Ok {A} a.
Global Arguments Err {A} e.

Definition Wrap (err : option Error) : option Error := err.
Definition WrapWithoutExtraStack (err : option Error) : option Error := err.

(** [errors.As(err, &ccfe)] with
    [ccfe *types.ConditionalCheckFailedException] *)
Fixpoint As_ConditionalCheckFailedException (err : Error) : bool :=
  match err with
  | ConditionalCheckFailedException => true
  | With e _ => As_ConditionalCheckFailedException e
  | Foreign _ | Errorf _ => false
  end.

End stackerr.
Import stackerr.

(** ** [time] *)

Module gotime.

(** nanoseconds since 1970-01-01T00:00:00Z *)
Definition Time : Type := Z.
Definition Duration : Type := Z.

Definition Second : Duration := 1000000000.

(** The zero value of [time.Time]: January 1, year 1, 00:00:00 UTC. *)
Definition zero : Time := -62135596800 * Second.

Definition Unix (sec nsec : Z) : Time := sec * Second + nsec.
Definition UnixMilli (msec : Z) : Time := msec * 1000000.
Definition UnixMicro (usec : Z) : Time := usec * 1000.

(** [t.UnixNano()] is computed in [int64]. *)
Definition UnixNano (t : Time) : Z := wrap64 t.

Definition Add (t : Time) (d : Duration) : Time := t + d.
Definition After (t u : Time) : bool := u <? t.

End gotime.

(** ** [numbers] and [dateutils] *)

Module numbers.

(** [Abs] at [int64]: [v * -1] wraps at the least value. *)
Definition Abs (v : Z) : Z := if v <? 0 then wrap64 (v * -1) else v.

End numbers.

Module dateutils.

(** [TimeFromUnix] at [int64].  The constants [1e3*math.MaxInt32] and
    [10e6*math.MaxInt32] are untyped and exact. *)
Definition TimeFromUnix (unix : Z) : gotime.Time :=
  let u := unix in
  let magnitude := numbers.Abs u in
  if magnitude <=? MaxInt32 then gotime.Unix u 0
  else if magnitude <=? 1000 * MaxInt32 then gotime.UnixMilli u
  else if magnitude <=? 10000000 * MaxInt32 then gotime.UnixMicro u
  else gotime.Unix (Z.quot u 1000000000) (Z.rem u 1000000000).

End dateutils.

(** ** The process and its surroundings *)

Module dynamodb.

Inductive AttributeValue : Type :=
| AttributeValueMemberS (Value : string)
(** a number; the SDK carries its decimal text, the model its value *)
| AttributeValueMemberN (Value : Z)
| AttributeValueMemberBOOL (Value : bool).

Global Instance AttributeValue_eq_dec : EqDecision AttributeValue.
Proof. solve_decision. Defined.

(** The expressions the lock sends, with the [#name] and [:value]
    placeholders already substituted. *)
Inductive Operand : Type :=
| Path (name : string)
| Lit (v : AttributeValue).

Inductive Condition : Type :=
| attribute_not_exists (path : string)
| Le (a b : Operand)
| Gt (a b : Operand)
| Eq (a b : Operand)
| Or (c1 c2 : Condition).

Definition operand (item : gmap string AttributeValue) (o : Operand)
  : option AttributeValue :=
  match o with
  | Path name => item !! name
  | Lit v => Some v
  end.

(** Ordering comparisons hold only between two values of one ordered
    type; a missing attribute or a type mismatch makes them false. *)
Definition le (x y : option AttributeValue) : bool :=
  match x, y with
  | Some (AttributeValueMemberN a), Some (AttributeValueMemberN b) => a <=? b
  | Some (AttributeValueMemberS a), Some (AttributeValueMemberS b) => String.leb a b
  | _, _ => false
  end.

Definition gt (x y : option AttributeValue) : bool :=
  match x, y with
  | Some (AttributeValueMemberN a), Some (AttributeValueMemberN b) => b <? a
  | Some (AttributeValueMemberS a), Some (AttributeValueMemberS b) => String.ltb b a
  | _, _ => false
  end.

Definition eq (x y : option AttributeValue) : bool :=
  match x, y with
  | Some a, Some b => bool_decide (a = b)
  | _, _ => false
  end.

(** A condition is evaluated on the stored item with the request's
    primary key; when there is none, on the item without attributes. *)
Fixpoint eval (c : Condition) (item : gmap string AttributeValue) : bool :=
  match c with
  | attribute_not_exists path => bool_decide (item !! path = None)
  | Le a b => le (operand item a) (operand item b)
  | Gt a b => gt (operand item a) (operand item b)
  | Eq a b => eq (operand item a) (operand item b)
  | Or c1 c2 => eval c1 item || eval c2 item
  end.

(** One table, its rows indexed by the string value of the partition
    key attribute [hashKey]. *)
Definition PutItem (hashKey : string) (Item : gmap string AttributeValue)
    (ConditionExpression : Condition)
    (rows : gmap string (gmap string AttributeValue))
  : Result (gmap string (gmap string AttributeValue)) :=
  match Item !! hashKey with
  | Some (AttributeValueMemberS k) =>
      if eval ConditionExpression (default ∅ (rows !! k))
      then Ok (<[k := Item]> rows)
      else Err ConditionalCheckFailedException
  | _ => Err (Foreign "ValidationException")
  end.

(** [UpdateItem] with an update expression [SET name = value]. *)
Definition UpdateItem (hashKey : string) (Key : string)
    (set_name : string) (set_value : AttributeValue)
    (ConditionExpression : Condition)
    (rows : gmap string (gmap string AttributeValue))
  : Result (gmap string (gmap string AttributeValue)) :=
  if eval ConditionExpression (default ∅ (rows !! Key))
  then Ok (<[Key :=
               <[set_name := set_value]>
                 (default {[hashKey := AttributeValueMemberS Key]} (rows !! Key))]>
             rows)
  else Err ConditionalCheckFailedException.

Definition GetItem (Key : string)
    (rows : gmap string (gmap string AttributeValue))
  : gmap string AttributeValue :=
  default ∅ (rows !! Key).

(** The items a scan returns, in the order the table yields them. *)
Definition Scan (FilterExpression : option Condition)
    (rows : gmap string (gmap string AttributeValue))
  : list (gmap string AttributeValue) :=
  List.filter (λ item, match FilterExpression with
                       | None => true
                       | Some c => eval c item
                       end)
              ((map_to_list rows).*2).

End dynamodb.
Import dynamodb.

Module attributevalue.

(** [attributevalue.Unmarshal(av, &s)] with [s string] *)
Definition Unmarshal_string (av : AttributeValue) : option string :=
  match av with
  | AttributeValueMemberS s => Some s
  | AttributeValueMemberN n => Some (pretty n)
  | AttributeValueMemberBOOL _ => None
  end.

(** [attributevalue.Unmarshal(av, &i)] with [i int64] *)
Definition Unmarshal_int64 (av : AttributeValue) : option Z :=
  match av with
  | AttributeValueMemberN n => if is_int64 n then Some n else None
  | AttributeValueMemberS _ | AttributeValueMemberBOOL _ => None
  end.

End attributevalue.

Module runtime.

Record World : Type := mkWorld {
  (** the wall clock *)
  clock : gotime.Time;
  (** time that passes before each of the next clock reads; the clock
      never goes back *)
  delays : list N;
  (** transport outcome of each of the next SDK calls: [Some msg] makes
      the call fail with [Foreign msg] before it reaches the table *)
  faults : list (option string);
  (** the rows of the lock table *)
  table : gmap string (gmap string AttributeValue);
  (** how many items the service puts in each of the next scan pages
      (the last page carries the rest) *)
  page_sizes : list nat;
  (** [lockCounterMap]: per key, the value of its [*atomic.Int32] *)
  lockCounterMap : gmap string Z;
}.

Definition M (A : Type) : Type := World → A * World.

Definition ret {A} (a : A) : M A := λ w, (a, w).
Definition bind {A B} (m : M A) (k : A → M B) : M B :=
  λ w, let (a, w') := m w in k a w'.

Definition set_clock (t : gotime.Time) (w : World) : World :=
  mkWorld t (delays w) (faults w) (table w) (page_sizes w) (lockCounterMap w).
Definition set_delays (ds : list N) (w : World) : World :=
  mkWorld (clock w) ds (faults w) (table w) (page_sizes w) (lockCounterMap w).
Definition set_faults (fs : list (option string)) (w : World) : World :=
  mkWorld (clock w) (delays w) fs (table w) (page_sizes w) (lockCounterMap w).
Definition set_table (rows : gmap string (gmap string AttributeValue))
    (w : World) : World :=
  mkWorld (clock w) (delays w) (faults w) rows (page_sizes w) (lockCounterMap w).
Definition set_lockCounterMap (m : gmap string Z) (w : World) : World :=
  mkWorld (clock w) (delays w) (faults w) (table w) (page_sizes w) m.

Definition get_clock : M gotime.Time := λ w, (clock w, w).

(** [time.Now()] *)
Definition time_Now : M gotime.Time :=
  λ w, let t := clock w + Z.of_N (default 0%N (head (delays w))) in
       (t, set_delays (tail (delays w)) (set_clock t w)).

(** The reading the [n]-th next [time.Now()] returns. *)
Definition clock_after (n : nat) (w : World) : gotime.Time :=
  clock w + Z.of_N (foldr N.add 0%N (take n (delays w))).

(** Time passing while the process does nothing. *)
Definition elapse (d : N) (w : World) : World :=
  set_clock (clock w + Z.of_N d) w.

(** A timer created at [start] with duration [d] has fired. *)
Definition timer_C (start : gotime.Time) (d : gotime.Duration) (w : World) : World :=
  set_clock (Z.max (clock w) (start + d)) w.

(** An SDK call that may change the table. *)
Definition call_write
    (op : gmap string (gmap string AttributeValue) →
          Result (gmap string (gmap string AttributeValue)))
  : M (option Error) :=
  λ w, let w' := set_faults (tail (faults w)) w in
       match head (faults w) with
       | Some (Some msg) => (Some (Foreign msg), w')
       | _ => match op (table w) with
              | Ok rows => (None, set_table rows w')
              | Err e => (Some e, w')
              end
       end.

(** An SDK call that reads the table. *)
Definition call_read {A}
    (op : gmap string (gmap string AttributeValue) → A) : M (Result A) :=
  λ w, let w' := set_faults (tail (faults w)) w in
       match head (faults w) with
       | Some (Some msg) => (Err (Foreign msg), w')
       | _ => (Ok (op (table w)), w')
       end.

End runtime.
Import runtime.

Notation "'let*' x ':=' m 'in' k" := (bind m (λ x, k))
  (at level 10, x pattern, m at level 100, k at level 200,
   format "'[v' 'let*'  x  ':='  m  'in' '/' k ']'").

(** ** [collections] and [gensync] *)

Module collections.

(** [TransformSliceToMapWithErr]; [idx] is the index of the head of
    [in_], [out] the map built so far.  A nil map reads as the empty
    map, so the early return for a nil slice needs no case of its own. *)
Fixpoint TransformSliceToMapWithErr_from {A V : Type}
    (transformationFunc : nat → A → M (Result (string * V)))
    (idx : nat) (in_ : list A) (out : gmap string V)
  : M (Result (gmap string V)) :=
  match in_ with
  | [] => ret (Ok out)
  | element :: rest =>
      let* r := transformationFunc idx element in
      match r with
      | Err err => ret (Err err)
      | Ok (k, v) =>
          TransformSliceToMapWithErr_from transformationFunc (S idx) rest
            (<[k := v]> out)
      end
  end.

Definition TransformSliceToMapWithErr {A V : Type} (in_ : list A)
    (transformationFunc : nat → A → M (Result (string * V)))
  : M (Result (gmap string V)) :=
  TransformSliceToMapWithErr_from transformationFunc 0%nat in_ ∅.

(** [TransformMapWithErr], ranging over the map in the order
    [map_to_list] gives. *)
Fixpoint TransformMapWithErr_from {A V : Type}
    (transformationFunc : string → A → Result (string * V))
    (in_ : list (string * A)) (r : gmap string V)
  : Result (gmap string V) :=
  match in_ with
  | [] => Ok r
  | (k, v) :: rest =>
      match transformationFunc k v with
      | Err err => Err err
      | Ok (newK, newV) =>
          TransformMapWithErr_from transformationFunc rest (<[newK := newV]> r)
      end
  end.

Definition TransformMapWithErr {A V : Type} (in_ : gmap string A)
    (transformationFunc : string → A → Result (string * V))
  : Result (gmap string V) :=
  TransformMapWithErr_from transformationFunc (map_to_list in_) ∅.

(** *** Slices and key-only maps

    A slice that may be nil is an [option (list T)], [None] being nil; a
    slice the code only ranges over is a [list T].  A [map[T]struct{}]
    is a [gset T]. *)

(** What a call does when it may index past the end of a slice. *)
Inductive Outcome (A : Type) : Type :=
| Returns (a : A)
| Panics.
Global Arguments Returns {A} a.
Global Arguments Panics {A}.

Section Slices.
Context {T : Type} `{Countable T}.

(** [MapKeys] of a key-only map.  Go ranges over a map in an order it
    leaves open; the model takes the order of [elements]. *)
Definition MapKeys (in_ : gset T) : list T := elements in_.

(** [for _, v := range in { m[v] = struct{}{} }] *)
Definition store_all (in_ : list T) (m : gset T) : gset T :=
  foldl (λ m v, {[v]} ∪ m) m in_.

Definition NewHashMap (initial : option (list T)) : gset T :=
  store_all (default [] initial) ∅.

Definition Has (key : T) (hm : gset T) : bool := bool_decide (key ∈ hm).

Definition SliceUnique (in_ : option (list T)) : option (list T) :=
  match in_ with
  | None => None
  | Some l => Some (MapKeys (store_all l ∅))
  end.

Definition IntersectionUnique (slices : list (option (list T)))
  : Outcome (option (list T)) :=
  match slices with
  | [] => Returns (Some [])
  | [only] => Returns (SliceUnique only)
  | first :: _ =>
      let h := store_all (default [] first) ∅ in
      (* [for i := 1; i > len(slices); i++]: a turn of this loop
         starts by reading [slices[i]] with [i] past the end *)
      if (length slices <? 1)%nat then Panics
      else Returns (Some (MapKeys h))
  end.

Definition UnionUnique (slices : list (option (list T)))
  : Outcome (option (list T)) :=
  match slices with
  | [] => Returns (Some [])
  | _ =>
      let h : gset T := ∅ in
      (* [for i := 0; i > len(slices); i++], as above *)
      if (length slices <? 0)%nat then Panics
      else Returns (Some (MapKeys h))
  end.

Definition SliceDiff (a b : option (list T)) : list T :=
  let bMap := NewHashMap b in
  foldl (λ diff v, if negb (Has v bMap) then diff ++ [v] else diff)
        [] (default [] a).

Definition SliceDiffUnique (a b : option (list T)) : list T :=
  let bMap := NewHashMap b in
  MapKeys (foldl (λ (aMap : gset T) v,
                    if negb (Has v bMap) then {[v]} ∪ aMap else aMap)
                 ∅ (default [] a)).

End Slices.

(** [SliceEqual]; the loop runs over two slices of one length. *)
Fixpoint SliceEqual_from {A : Type} (comparisonFunc : A → A → bool)
    (in1 in2 : list A) : bool :=
  match in1, in2 with
  | val1 :: rest1, val2 :: rest2 =>
      if negb (comparisonFunc val1 val2) then false
      else SliceEqual_from comparisonFunc rest1 rest2
  | _, _ => true
  end.

Definition SliceEqual {A : Type} (in1 in2 : option (list A))
    (comparisonFunc : A → A → bool) : bool :=
  match in1, in2 with
  | None, None => true
  | None, Some _ | Some _, None => false
  | Some l1, Some l2 =>
      if negb (length l1 =? length l2)%nat then false
      else SliceEqual_from comparisonFunc l1 l2
  end.

(** [TransformSliceWithErr]; [out] holds the elements transformed so
    far. *)
Fixpoint TransformSliceWithErr_from {In Out : Type}
    (transformationFunc : In → Result Out) (in_ : list In) (out : list Out)
  : Result (option (list Out)) :=
  match in_ with
  | [] => Ok (Some out)
  | v :: rest =>
      match transformationFunc v with
      | Err err => Err err
      | Ok transformed =>
          TransformSliceWithErr_from transformationFunc rest (out ++ [transformed])
      end
  end.

Definition TransformSliceWithErr {In Out : Type} (in_ : option (list In))
    (transformationFunc : In → Result Out) : Result (option (list Out)) :=
  match in_ with
  | None => Ok None
  | Some l => TransformSliceWithErr_from transformationFunc l []
  end.

(** [MergeMaps]: [None] is the nil map it returns for no argument. *)
Definition MergeMaps {V : Type} (maps : list (gmap string V))
  : option (gmap string V) :=
  match maps with
  | [] => None
  | _ =>
      Some (foldl (λ out m,
                     foldl (λ out kv, <[kv.1 := kv.2]> out) out (map_to_list m))
                  ∅ maps)
  end.

End collections.

Module gensync.

(** [Map.LoadOrStore]: the value now stored under [key], whether it was
    there before, and the map afterwards. *)
Definition LoadOrStore {V : Type} (key : string) (value : V) (m : gmap string V)
  : V * bool * gmap string V :=
  match m !! key with
  | Some actual => (actual, true, m)
  | None => (value, false, <[key := value]> m)
  end.

(** [NewMap], [Store], [Range] and the methods built on [Range], on a
    map with keys of any comparable type. *)
Section Map.
Context {K : Type} `{Countable K} {V : Type}.









End Map.

End gensync.

(** ** [lock]: the distributed lock *)

Module lock.

Definition metaColumn : string := "Metadata".
Definition acquiredColumn : string := "AcquiredUnixNano".
Definition logsUrlColumn : string := "LogsUrl".
Definition expiresColumn : string := "ExpiresUnixNano".

Record DistributedLockerConfig : Type := {
  TableArn : string;
  KeyColumn : string;
  VersionColumn : string;
}.

Record distributedLocker : Type := {
  config : DistributedLockerConfig;
  tableName : string;
}.

(** What [lambdacontext.FromContext] finds in a context. *)
Record LambdaContext : Type := {
  AwsRequestID : string;
  InvokedFunctionArn : string;
}.

(** A [context.Context] as the lock uses it: its [Err()] and the Lambda
    context it may carry. *)
Record Context : Type := {
  ctx_Err : option Error;
  ctx_lambda : option LambdaContext;
}.

(** What the lock takes from outside the repository or from string
    formatting this development does not look into: the values a caller
    may put in the metadata with their JSON encoding, and the log stream
    URL of a Lambda invocation. *)
Class Externals : Type := {
  any : Type;
  (** [json.Marshal(value)] *)
  json_Marshal : any → Result string;
  (** [json.Marshal(metadata)] *)
  json_Marshal_map : gmap string any → Result string;
  (** the map [json.Unmarshal(raw, &metadata)] leaves in [metadata] *)
  json_Unmarshal_map : string → gmap string string;
  (** [lambda.RequestIdLogStreamUrlFromContext] *)
  RequestIdLogStreamUrlFromContext : LambdaContext → Result string;
  (** the package variable [runId], set once by [init] *)
  runId : string;
}.

Record lockData : Type := {
  key : string;
  version : string;
  acquired : gotime.Time;
  expires : gotime.Time;
  logsUrl : string;
  metadata : gmap string string;
  active : bool;
}.

Definition Key (ld : lockData) : string := key ld.
Definition Version (ld : lockData) : string := version ld.
Definition Acquired (ld : lockData) : gotime.Time := acquired ld.
Definition Expires (ld : lockData) : gotime.Time := expires ld.
Definition LogsUrl (ld : lockData) : string := logsUrl ld.
Definition Active (ld : lockData) : bool := active ld.

(** The heartbeat goroutine: waiting on the timer it created at
    [timerStart], or returned with its error. *)
Inductive Heartbeat : Type :=
| Running (timerStart : gotime.Time)
| Returned (err : option Error).

(** A held lock.  [ctx] is the context [Lock] was called with;
    [unlockCtx] and [passthroughCtx] are its children, each done once
    its own cancel function was called or [ctx] is done.  [locked] is
    stored once, by [Lock]; nothing in the package clears it. *)
Record distributedLock : Type := mkLock {
  data : lockData;
  locked : bool;
  ctx : Context;
  unlockCtxCancelled : bool;
  passthroughCtxCancelled : bool;
  heartbeat : Heartbeat;
}.

Definition unlockCtx_Done (l : distributedLock) : bool :=
  unlockCtxCancelled l || bool_decide (is_Some (ctx_Err (ctx l))).
Definition passthroughCtx_Done (l : distributedLock) : bool :=
  passthroughCtxCancelled l || bool_decide (is_Some (ctx_Err (ctx l))).

(** The caller's context is cancelled or runs out. *)
Definition ctx_cancel (e : Error) (l : distributedLock) : distributedLock :=
  mkLock (data l) (locked l)
    {| ctx_Err := Some (default e (ctx_Err (ctx l))); ctx_lambda := ctx_lambda (ctx l) |}
    (unlockCtxCancelled l) (passthroughCtxCancelled l) (heartbeat l).

Definition unlockCtxCancel (l : distributedLock) : distributedLock :=
  mkLock (data l) (locked l) (ctx l) true (passthroughCtxCancelled l) (heartbeat l).

(** Which context [Lock] hands back. *)
Inductive NewCtx : Type := ctx_nil | ctx_caller | ctx_passthrough.

Record LockReturn : Type := mkReturn {
  newCtx : NewCtx;
  newLock : option distributedLock;
  existingLock : option lockData;
  err : option Error;
}.

(** The constant [active] is [active_] here: the field [active] of
    [lockData] has the name. *)
Inductive lockType : Type := all | active_ | expired.

(** Local to [Lock] in the source, where the heartbeat closure captures
    them. *)
Definition lockDuration : gotime.Duration := 20 * gotime.Second.
Definition heartbeatInterval : gotime.Duration := Z.quot lockDuration 2.

Section Locker.
Context `{Externals} (dl : distributedLocker).

Definition parseLockData (item : gmap string AttributeValue)
  : M (Result lockData) :=
  match item !! KeyColumn (config dl) with
  | None => ret (Err (Errorf "No key field in existing lock row"))
  | Some keyValue =>
  match attributevalue.Unmarshal_string keyValue with
  | None => ret (Err (Errorf "Version field in existing lock row is not of expected type"))
  | Some key =>
  match item !! VersionColumn (config dl) with
  | None => ret (Err (Errorf "No version field in existing lock row"))
  | Some versionValue =>
  match attributevalue.Unmarshal_string versionValue with
  | None => ret (Err (Errorf "Version field in existing lock row is not of expected type"))
  | Some version =>
  match item !! acquiredColumn with
  | None => ret (Err (Errorf "No acquired field in existing lock row"))
  | Some acquiredValue =>
  match attributevalue.Unmarshal_int64 acquiredValue with
  | None => ret (Err (Errorf "Acquired field in existing lock row is not of expected type"))
  | Some acquiredUnixNano =>
  match item !! expiresColumn with
  | None => ret (Err (Errorf "No expires field in existing lock row"))
  | Some expiresValue =>
  match attributevalue.Unmarshal_int64 expiresValue with
  | None => ret (Err (Errorf "Expires field in existing lock row is not of expected type"))
  | Some expiresUnixNano =>
      let logsUrl :=
        match item !! logsUrlColumn with
        | Some logsUrlValue =>
            default "" (attributevalue.Unmarshal_string logsUrlValue)
        | None => ""
        end in
      let metadata :=
        match item !! metaColumn with
        | Some metadataValue =>
            match attributevalue.Unmarshal_string metadataValue with
            | None => ∅
            | Some rawMetadata => json_Unmarshal_map rawMetadata
            end
        | None => ∅
        end in
      let acquired := dateutils.TimeFromUnix acquiredUnixNano in
      let expires := dateutils.TimeFromUnix expiresUnixNano in
      let* now := time_Now in
      ret (Ok {| key := key; version := version; acquired := acquired;
                 expires := expires; logsUrl := logsUrl;
                 metadata := metadata;
                 active := gotime.After expires now |})
  end end end end end end end end.

Definition getExistingLock (ctx : Context) (key : string)
  : M (Result lockData) :=
  let* existing := call_read (GetItem key) in
  match existing with
  | Err err => ret (Err err)
  | Ok item =>
      let* parsed := parseLockData item in
      match parsed with
      | Err serr => ret (Err (With serr [("key", FString key)]))
      | Ok existingLockData => ret (Ok existingLockData)
      end
  end.

(** [lockCounterMap.LoadOrStore(key, &atomic.Int32{})] followed by
    [lockCounter.Add(1) - 1] on the counter it returns. *)
Definition nextLockCount (key : string) : M Z :=
  λ w,
    let stored := gensync.LoadOrStore key 0 (lockCounterMap w) in
    let lockCounter := stored.1.1 in
    let added := wrap32 (lockCounter + 1) in
    (wrap32 (added - 1), set_lockCounterMap (<[key := added]> stored.2) w).

(** [fmt.Sprintf("%s-%d", lockerId, lockCount)] *)
Definition versionOf (lockerId : string) (lockCount : Z) : string :=
  lockerId +:+ "-" +:+ pretty lockCount.

(** The deferred function of the heartbeat goroutine, run with the
    error [err] the loop returned. *)
Definition heartbeat_return (err : option Error) (l : distributedLock)
  : distributedLock :=
  mkLock (data l) (locked l) (ctx l) (unlockCtxCancelled l)
    (if err is Some _ then true else passthroughCtxCancelled l)
    (Returned (WrapWithoutExtraStack err)).

Definition heartbeat_rearm (start : gotime.Time) (l : distributedLock)
  : distributedLock :=
  mkLock (data l) (locked l) (ctx l) (unlockCtxCancelled l)
    (passthroughCtxCancelled l) (Running start).

(** One turn of the heartbeat loop through [case <-timer.C]. *)
Definition heartbeat_timer (l : distributedLock) : M distributedLock :=
  match heartbeat l with
  | Returned _ => ret l
  | Running start =>
      let* _ := (λ w, (tt, timer_C start heartbeatInterval w)) in
      let* now := time_Now in
      let* uerr :=
        call_write
          (UpdateItem (KeyColumn (config dl)) (key (data l)) expiresColumn
             (AttributeValueMemberN
                (gotime.UnixNano (gotime.Add now heartbeatInterval)))
             (Eq (Path (VersionColumn (config dl)))
                 (Lit (AttributeValueMemberS (version (data l)))))) in
      match uerr with
      | Some e =>
          if As_ConditionalCheckFailedException e then
            let* existing := getExistingLock (ctx l) (key (data l)) in
            match existing with
            | Err e' => ret (heartbeat_return (Some e') l)
            | Ok existingLock =>
                ret (heartbeat_return
                       (Some (With (Errorf "Distributed lock has been lost")
                                [("existing_lock_version", FString (Version existingLock));
                                 ("existing_lock_acquired", FTime (Acquired existingLock));
                                 ("existing_lock_active", FBool (Active existingLock));
                                 ("existing_lock_logs",
                                  FSlackLink (LogsUrl existingLock) "Log Stream")]))
                       l)
            end
          else ret (heartbeat_return (Wrap (Some e)) l)
      | None =>
          let* start' := get_clock in
          ret (heartbeat_rearm start' l)
      end
  end.

(** One turn of the heartbeat loop through [case <-unlockCtx.Done()];
    it can be taken only once [unlockCtx] is done. *)
Definition heartbeat_done (l : distributedLock) : distributedLock :=
  match heartbeat l with
  | Returned _ => l
  | Running _ =>
      if unlockCtx_Done l then
        if locked l then heartbeat_return (Wrap (ctx_Err (ctx l))) l
        else heartbeat_return None l
      else l
  end.

(** [distributedLock.Unlock].  [heartbeatErrGroup.Wait()] returns once
    the goroutine has: a goroutine still in its loop leaves through
    [heartbeat_done].  (A renewal the loop still makes before it sees
    the cancellation is a [heartbeat_timer] before this call.) *)
Definition Unlock (ctx' : Context) (l : distributedLock)
  : M (option Error * distributedLock) :=
  let l := unlockCtxCancel l in
  let l := heartbeat_done l in
  let heartbeatErr :=
    Wrap (match heartbeat l with Returned e => e | Running _ => None end) in
  let* now := time_Now in
  let* uerr :=
    call_write
      (UpdateItem (KeyColumn (config dl)) (key (data l)) expiresColumn
         (AttributeValueMemberN (gotime.UnixNano now))
         (Eq (Path (VersionColumn (config dl)))
             (Lit (AttributeValueMemberS (version (data l)))))) in
  match uerr with
  | Some e =>
      if As_ConditionalCheckFailedException e then
        ret (Some (Errorf ("could not unlock distributed lock '" +:+ key (data l)
                           +:+ "', as it is not currently locked by this process")),
             l)
      else ret (Wrap (Some e), l)
  | None => ret (heartbeatErr, l)
  end.

Definition Lock (ctx : Context) (key : string)
    (metadata : option (gmap string any)) : M LockReturn :=
  let* now := time_Now in
  let initialExpiry := gotime.Add now lockDuration in
  let* now' := time_Now in
  let acquiredUnixNano := gotime.UnixNano now' in
  let attributes : gmap string AttributeValue :=
    <[expiresColumn := AttributeValueMemberN (gotime.UnixNano initialExpiry)]>
      (<[acquiredColumn := AttributeValueMemberN acquiredUnixNano]>
         (<[KeyColumn (config dl) := AttributeValueMemberS key]> ∅)) in
  let fromLambda : Result (string * string * gmap string AttributeValue) :=
    match ctx_lambda ctx with
    | Some lc =>
        match RequestIdLogStreamUrlFromContext lc with
        | Err e => Err e
        | Ok logsUrl =>
            Ok (AwsRequestID lc, logsUrl,
                <[logsUrlColumn := AttributeValueMemberS logsUrl]> attributes)
        end
    | None => Ok ("local/" +:+ runId, "", attributes)
    end in
  match fromLambda with
  | Err e => ret (mkReturn ctx_nil None None (Some e))
  | Ok (lockerId, logsUrl, attributes) =>
      let* lockCount := nextLockCount key in
      let version := versionOf lockerId lockCount in
      let attributes :=
        <[VersionColumn (config dl) := AttributeValueMemberS version]> attributes in
      let metadata := default ∅ metadata in
      match json_Marshal_map metadata with
      | Err cerr => ret (mkReturn ctx_nil None None (Wrap (Some cerr)))
      | Ok meta =>
          let attributes :=
            <[metaColumn := AttributeValueMemberS meta]> attributes in
          let* now'' := time_Now in
          let* perr :=
            call_write
              (PutItem (KeyColumn (config dl)) attributes
                 (Or (attribute_not_exists (KeyColumn (config dl)))
                     (Le (Path expiresColumn)
                         (Lit (AttributeValueMemberN (gotime.UnixNano now'')))))) in
          match perr with
          | Some e =>
              if As_ConditionalCheckFailedException e then
                let* existing := getExistingLock ctx key in
                match existing with
                | Err e' => ret (mkReturn ctx_caller None None (Some e'))
                | Ok existingLock =>
                    ret (mkReturn ctx_caller None (Some existingLock) None)
                end
              else ret (mkReturn ctx_caller None None (Wrap (Some e)))
          | None =>
              let metadataJson :=
                collections.TransformMapWithErr metadata
                  (λ key value,
                     match json_Marshal value with
                     (* [return "", nil, stackerr.Wrap(err)] wraps the
                        result variable [err], which is nil here *)
                     | Err cerr => Ok ("", "")
                     | Ok j => Ok (key, j)
                     end) in
              match metadataJson with
              | Err e => ret (mkReturn ctx_caller None None (Some e))
              | Ok metadataJson =>
                  (* the goroutine starts and creates its first timer *)
                  let* start := get_clock in
                  ret (mkReturn ctx_passthrough
                         (Some (mkLock
                                  {| key := key; version := version;
                                     acquired := dateutils.TimeFromUnix acquiredUnixNano;
                                     expires := gotime.zero;
                                     logsUrl := logsUrl;
                                     metadata := metadataJson;
                                     active := true |}
                                  true ctx false false (Running start)))
                         None None)
              end
          end
      end
  end.

(** The pages of a scan: the items that pass the filter, cut as the
    service decides. *)
Fixpoint paginate (sizes : list nat) (items : list (gmap string AttributeValue))
  : list (list (gmap string AttributeValue)) :=
  match sizes with
  | [] => [items]
  | n :: sizes' => take n items :: paginate sizes' (drop n items)
  end.

(** [for paginator.HasMorePages() { page, err := paginator.NextPage(ctx) ... }] *)
Fixpoint nextPages (pages : list (list (gmap string AttributeValue)))
    (items : list (gmap string AttributeValue))
  : M (Result (list (gmap string AttributeValue))) :=
  match pages with
  | [] => ret (Ok items)
  | page :: rest =>
      let* fetched := call_read (λ _, page) in
      match fetched with
      | Err e => ret (Err e)
      | Ok page => nextPages rest (items ++ page)
      end
  end.

Definition getLocks (ctx : Context) (typ : lockType)
  : M (Result (gmap string lockData)) :=
  let* filter :=
    match typ with
    | all => ret None
    | active_ =>
        let* now := time_Now in
        ret (Some (Gt (Path expiresColumn)
                      (Lit (AttributeValueMemberN (gotime.UnixNano now)))))
    | expired =>
        let* now := time_Now in
        ret (Some (Le (Path expiresColumn)
                      (Lit (AttributeValueMemberN (gotime.UnixNano now)))))
    end in
  let* pages := (λ w, (paginate (page_sizes w) (Scan filter (table w)), w)) in
  let* scanned := nextPages pages [] in
  match scanned with
  | Err e => ret (Err e)
  | Ok items =>
      collections.TransformSliceToMapWithErr items
        (λ _ sliceValue,
           let* parsed := parseLockData sliceValue in
           match parsed with
           | Err e => ret (Err e)
           | Ok lock => ret (Ok (Key lock, lock))
           end)
  end.

Definition GetAllLocks (ctx : Context) := getLocks ctx all.
Definition GetActiveLocks (ctx : Context) := getLocks ctx active_.
Definition GetExpiredLocks (ctx : Context) := getLocks ctx expired.

End Locker.

End lock.
Import lock.

(** ** Vocabulary of the statements *)

(** The two configured column names and the four fixed ones are six
    different names. *)
Definition distinct_columns (c : DistributedLockerConfig) : Prop :=
  NoDup [KeyColumn c; VersionColumn c; metaColumn; acquiredColumn;
         logsUrlColumn; expiresColumn].

(** The next [n] SDK calls are not failed by the transport. *)
Definition reliable (n : nat) (w : World) : Prop :=
  Forall (λ f, f = None) (take n (faults w)).

(** Every row is stored under the value of its key attribute, as the
    table guarantees for its partition key. *)
Definition keyed (c : DistributedLockerConfig)
    (rows : gmap string (gmap string AttributeValue)) : Prop :=
  map_Forall (λ k (item : gmap string AttributeValue),
                item !! KeyColumn c = Some (AttributeValueMemberS k)) rows.

(** A row as the lock writes it: key [k], version [v], acquisition time
    [a] and expiry [e], with the types [parseLockData] expects. *)
Definition row_has (c : DistributedLockerConfig)
    (item : gmap string AttributeValue) (k v : string) (a e : Z) : Prop :=
  item !! KeyColumn c = Some (AttributeValueMemberS k)
  ∧ item !! VersionColumn c = Some (AttributeValueMemberS v)
  ∧ item !! acquiredColumn = Some (AttributeValueMemberN a)
  ∧ item !! expiresColumn = Some (AttributeValueMemberN e)
  ∧ is_int64 a = true ∧ is_int64 e = true.

(** The rule of the conditional insert: no row under [key], or a row
    whose expiry is a number not after [now]. *)
Definition acquirable (rows : gmap string (gmap string AttributeValue))
    (key : string) (now : Z) : Prop :=
  rows !! key = None
  ∨ ∃ item e, rows !! key = Some item
              ∧ item !! expiresColumn = Some (AttributeValueMemberN e)
              ∧ e ≤ now.

(** The expiry stored for [key], when it is a number. *)
Definition expires_at (rows : gmap string (gmap string AttributeValue))
    (key : string) : option Z :=
  match rows !! key with
  | Some item =>
      match item !! expiresColumn with
      | Some (AttributeValueMemberN e) => Some e
      | _ => None
      end
  | None => None
  end.

(** The version stored for [key]. *)
Definition version_at (c : DistributedLockerConfig)
    (rows : gmap string (gmap string AttributeValue))
    (key : string) : option AttributeValue :=
  match rows !! key with
  | Some item => item !! VersionColumn c
  | None => None
  end.

(** The world after one clock read. *)
Definition after_read (w : World) : World :=
  set_delays (tail (delays w)) (set_clock (clock_after 1 w) w).

(** The world when the heartbeat's timer has fired and the renewal has
    read the clock. *)
Definition at_renewal (start : gotime.Time) (w : World) : World :=
  after_read (timer_C start heartbeatInterval w).

(** The error of a heartbeat that finds another version in the row. *)
Definition lease_lost (existingLock : lockData) : Error :=
  With (Errorf "Distributed lock has been lost")
    [("existing_lock_version", FString (Version existingLock));
     ("existing_lock_acquired", FTime (Acquired existingLock));
     ("existing_lock_active", FBool (Active existingLock));
     ("existing_lock_logs", FSlackLink (LogsUrl existingLock) "Log Stream")].

(** The error of a release that finds another version in the row. *)
Definition not_locked (key : string) : Error :=
  Errorf ("could not unlock distributed lock '" +:+ key
          +:+ "', as it is not currently locked by this process").

Section Vocabulary.
Context `{Externals}.

(** [Lock] gets as far as its [PutItem]: the log stream URL of a Lambda
    invocation can be built and the metadata has a JSON encoding. *)
Definition prepared (ctx : Context) (metadata : option (gmap string any)) : Prop :=
  (∀ lc, ctx_lambda ctx = Some lc →
         ∃ url, RequestIdLogStreamUrlFromContext lc = Ok url)
  ∧ ∃ meta, json_Marshal_map (default ∅ metadata) = Ok meta.

Definition lockerId (ctx : Context) : string :=
  match ctx_lambda ctx with
  | Some lc => AwsRequestID lc
  | None => "local/" +:+ runId
  end.

(** The sequence number and the token of the [n]-th acquisition attempt
    (counted from 0) this process makes for [key], when it starts in
    world [w]. *)
Definition after_attempts (key : string) (n : N) (w : World) : World :=
  N.iter n (λ w, (nextLockCount key w).2) w.

(** [n] turns of the heartbeat loop through its timer; the result lists
    the expiry of the row after each turn. *)
Fixpoint heartbeats (dl : distributedLocker) (n : nat) (l : distributedLock)
    (w : World) : list (option Z) * (distributedLock * World) :=
  match n with
  | O => ([], (l, w))
  | S n' =>
      let (l', w') := heartbeat_timer dl l w in
      let (seen, final) := heartbeats dl n' l' w' in
      (expires_at (table w') (key (data l)) :: seen, final)
  end.

End Vocabulary.

Section LockVocabulary.
Context `{Externals} (dl : distributedLocker).

(** The condition of the insert of [Lock], evaluated by the table. *)
Definition insert_allowed
    (rows : gmap string (gmap string AttributeValue)) (key : string)
    (now : Z) : bool :=
  eval (Or (attribute_not_exists (KeyColumn (config dl)))
           (Le (Path expiresColumn) (Lit (AttributeValueMemberN now))))
       (default ∅ (rows !! key)).

(** The condition of a renewal and of a release. *)
Definition still_owned
    (rows : gmap string (gmap string AttributeValue)) (key version : string)
  : bool :=
  eval (Eq (Path (VersionColumn (config dl)))
           (Lit (AttributeValueMemberS version)))
       (default ∅ (rows !! key)).

Definition logsUrlOf (ctx : Context) : string :=
  match ctx_lambda ctx with
  | Some lc =>
      match RequestIdLogStreamUrlFromContext lc with
      | Ok url => url
      | Err _ => ""
      end
  | None => ""
  end.

Definition metaOf (metadata : option (gmap string any)) : string :=
  match json_Marshal_map (default ∅ metadata) with
  | Ok meta => meta
  | Err _ => ""
  end.

Definition metadataJsonOf (metadata : option (gmap string any))
  : gmap string string :=
  match collections.TransformMapWithErr (default ∅ metadata)
          (λ key value,
             match json_Marshal value with
             | Err _ => Ok ("", "")
             | Ok j => Ok (key, j)
             end)
  with
  | Ok m => m
  | Err _ => ∅
  end.

(** The version [Lock] computes when called in world [w]. *)
Definition next_version (ctx : Context) (key : string) (w : World) : string :=
  versionOf (lockerId ctx) (wrap32 (default 0 (lockCounterMap w !! key))).

(** The row [Lock] tries to insert when called in world [w]. *)
Definition candidate (ctx : Context) (key : string)
    (metadata : option (gmap string any)) (w : World)
  : gmap string AttributeValue :=
  let attributes :=
    <[expiresColumn :=
        AttributeValueMemberN
          (gotime.UnixNano (gotime.Add (clock_after 1 w) lockDuration))]>
      (<[acquiredColumn := AttributeValueMemberN (gotime.UnixNano (clock_after 2 w))]>
         (<[KeyColumn (config dl) := AttributeValueMemberS key]> ∅)) in
  let attributes :=
    match ctx_lambda ctx with
    | Some _ => <[logsUrlColumn := AttributeValueMemberS (logsUrlOf ctx)]> attributes
    | None => attributes
    end in
  <[metaColumn := AttributeValueMemberS (metaOf metadata)]>
    (<[VersionColumn (config dl) := AttributeValueMemberS (next_version ctx key w)]>
       attributes).

(** The handle [Lock] returns when its insert goes through. *)
Definition granted (ctx : Context) (key : string)
    (metadata : option (gmap string any)) (w : World) : distributedLock :=
  mkLock
    {| key := key; version := next_version ctx key w;
       acquired := dateutils.TimeFromUnix (gotime.UnixNano (clock_after 2 w));
       expires := gotime.zero;
       logsUrl := logsUrlOf ctx;
       metadata := metadataJsonOf metadata;
       active := true |}
    true ctx false false (Running (clock_after 3 w)).

(** The rows after a renewal or a release went through: the stored row
    with a new expiry. *)
Definition with_expiry (rows : gmap string (gmap string AttributeValue))
    (key : string) (e : Z) : gmap string (gmap string AttributeValue) :=
  <[key := <[expiresColumn := AttributeValueMemberN e]>
             (default {[KeyColumn (config dl) := AttributeValueMemberS key]}
                      (rows !! key))]> rows.

(** The world when [Lock] has read the clock three times, counted the
    attempt, and its [PutItem] has come back. *)
Definition after_insert (key : string)
    (rows : gmap string (gmap string AttributeValue)) (w : World) : World :=
  mkWorld (clock_after 3 w) (drop 3 (delays w)) (tail (faults w)) rows
    (page_sizes w)
    (<[key := wrap32 (default 0 (lockCounterMap w !! key) + 1)]> (lockCounterMap w)).

End LockVocabulary.

Section HandleVocabulary.
Context `{Externals} (dl : distributedLocker).

(** [later l l']: the handle [l] has become [l'] through turns of its
    heartbeat, releases and cancellations of its context, at any times
    and in any worlds. *)
Inductive later (l : distributedLock) : distributedLock → Prop :=
| later_now : later l l
| later_timer l' w : later l l' → later l (heartbeat_timer dl l' w).1
| later_done l' : later l l' → later l (heartbeat_done l')
| later_Unlock l' ctx' w : later l l' → later l (Unlock dl ctx' l' w).1.2
| later_cancel l' e : later l l' → later l (ctx_cancel e l').

End HandleVocabulary.

Section ListingVocabulary.
Context `{Externals} (dl : distributedLocker).

(** [parseLockData] accepts the row, whenever it is called. *)
Definition decodes (item : gmap string AttributeValue) : Prop :=
  ∀ w, ∃ ld, parseLockData dl item w = (Ok ld, after_read w).

(** [parseLockData] rejects the row with [e], whenever it is called. *)
Definition undecodable (item : gmap string AttributeValue) (e : Error) : Prop :=
  ∀ w, parseLockData dl item w = (Err e, w).

(** The filter [getLocks] sends with its scan when called in [w]. *)
Definition scan_filter (typ : lockType) (w : World) : option Condition :=
  match typ with
  | all => None
  | active_ =>
      Some (Gt (Path expiresColumn)
               (Lit (AttributeValueMemberN (gotime.UnixNano (clock_after 1 w)))))
  | expired =>
      Some (Le (Path expiresColumn)
               (Lit (AttributeValueMemberN (gotime.UnixNano (clock_after 1 w)))))
  end.

(** The rows the scan of [getLocks] fetches when called in [w], in the
    order it fetches them. *)
Definition scanned (typ : lockType) (w : World)
  : list (gmap string AttributeValue) :=
  Scan (scan_filter typ w) (table w).

(** The world in which [getLocks] starts to decode the rows it fetched. *)
Definition after_scan (typ : lockType) (w : World) : World :=
  let w1 := match typ with all => w | _ => after_read w end in
  set_faults (drop (S (length (page_sizes w))) (faults w)) w1.

End ListingVocabulary.


(** ** A concrete setting for examples

    Metadata values are given by their JSON text, the encoded map is not
    looked into, and the clock starts on 2023-11-14T22:13:20Z. *)

Module example.

Definition externals : Externals := {|
  any := string;
  json_Marshal := λ v, Ok v;
  json_Marshal_map := λ _, Ok "{}";
  json_Unmarshal_map := λ _, ∅;
  RequestIdLogStreamUrlFromContext := λ lc, Ok ("https://logs/" +:+ AwsRequestID lc);
  runId := "4f6c";
|}.

Definition locker : distributedLocker := {|
  config := {| TableArn := "arn:aws:dynamodb:eu-west-1:1:table/locks";
               KeyColumn := "Key"; VersionColumn := "Version" |};
  tableName := "locks";
|}.

Definition background : Context := {| ctx_Err := None; ctx_lambda := None |}.

Definition t0 : gotime.Time := 1700000000 * gotime.Second.

(** A fresh process and an empty table at [t0]; time stands still
    during calls and the transport is reliable. *)
Definition start : World := mkWorld t0 [] [] ∅ [] ∅.

Definition seconds (n : N) : N := n * 1000000000.

(** Process A takes the lock on ["job-7"] at [t0]. *)
Definition A_locks : LockReturn * World :=
  Lock (H := externals) locker background "job-7" None start.

Definition no_lock : distributedLock :=
  mkLock {| key := ""; version := ""; acquired := 0; expires := 0;
            logsUrl := ""; metadata := ∅; active := false |}
    false background false false (Returned None).

Definition A : distributedLock := default no_lock (newLock A_locks.1).

(** A Lambda invocation in the same process. *)
Definition invocation : Context := {|
  ctx_Err := None;
  ctx_lambda := Some {| AwsRequestID := "8d2b";
                        InvokedFunctionArn := "arn:aws:lambda:eu-west-1:1:function:worker" |};
|}.

(** B, that invocation, asks for the same lock 25 seconds later, A not
    having renewed it. *)
Definition B_locks : LockReturn * World :=
  Lock (H := externals) locker invocation "job-7" None
    (elapse (seconds 25) A_locks.2).

(** The row of a lock on ["job-8"] that runs until [t0] plus 20 seconds
    and has lost its acquisition time. *)
Definition corrupt_row : gmap string AttributeValue :=
  <["ExpiresUnixNano" := AttributeValueMemberN (t0 + 20 * gotime.Second)]>
    (<["Version" := AttributeValueMemberS "local/9a0e-0"]>
       (<["Key" := AttributeValueMemberS "job-8"]> ∅)).

(** The table with A's row and the corrupt row. *)
Definition with_corrupt_row : World :=
  set_table (<["job-8" := corrupt_row]> (table A_locks.2)) A_locks.2.





End example.

(** ** Vocabulary of the further properties *)

(** Every row of the table is one the lock could have written, stored
    under its key. *)
Definition well_formed (c : DistributedLockerConfig)
    (rows : gmap string (gmap string AttributeValue)) : Prop :=
  map_Forall (λ k (item : gmap string AttributeValue),
                ∃ v a e, row_has c item k v a e) rows.

(** The attribute [c] of the row stored under [k]. *)
Definition cell (rows : gmap string (gmap string AttributeValue))
    (k c : string) : option AttributeValue :=
  rows !! k ≫= (λ item, item !! c).

(** Whether a listing of kind [typ] that read the clock at [now] asks for
    a row that expires at [e]. *)
Definition listed (typ : lockType) (now e : Z) : bool :=
  match typ with
  | all => true
  | active_ => now <? e
  | expired => e <=? now
  end.

(** * Properties *)

(** ** Machine integers *)

Lemma wrap64_id z : MinInt64 ≤ z ≤ MaxInt64 → wrap64 z = z.
Proof.
  unfold wrap64, MinInt64, MaxInt64. intros Hz.
  rewrite Z.mod_small; lia.
Qed.

Lemma wrap64_is_int64 z : is_int64 (wrap64 z) = true.
Proof.
  unfold is_int64, wrap64, MinInt64, MaxInt64.
  pose proof (Z.mod_pos_bound (z + 2 ^ 63) (2 ^ 64) ltac:(lia)).
  apply andb_true_iff. split; apply Z.leb_le; lia.
Qed.

Lemma is_int64_spec z : is_int64 z = true ↔ MinInt64 ≤ z ≤ MaxInt64.
Proof. unfold is_int64. rewrite andb_true_iff, !Z.leb_le. lia. Qed.




Lemma wrap32_succ_pred z : wrap32 (wrap32 (z + 1) - 1) = wrap32 z.
Proof.
  unfold wrap32.
  replace (((z + 1 + 2 ^ 31) mod 2 ^ 32 - 2 ^ 31 - 1 + 2 ^ 31))
    with ((z + 1 + 2 ^ 31) mod 2 ^ 32 - 1) by lia.
  rewrite Zminus_mod_idemp_l. f_equal. f_equal. lia.
Qed.


(** ** The column names *)

Lemma fixed_columns_distinct :
  NoDup [metaColumn; acquiredColumn; logsUrlColumn; expiresColumn].
Proof. compute_done. Qed.

Section Columns.
Context (c : DistributedLockerConfig) (Hc : distinct_columns c).

Local Ltac from_NoDup :=
  let H := fresh in
  pose proof Hc as H; unfold distinct_columns in H;
  repeat (apply NoDup_cons in H as [? H]);
  set_solver.

Lemma key_ne_version : KeyColumn c ≠ VersionColumn c.
Proof. from_NoDup. Qed.
Lemma key_ne_meta : KeyColumn c ≠ metaColumn.
Proof. from_NoDup. Qed.
Lemma key_ne_acquired : KeyColumn c ≠ acquiredColumn.
Proof. from_NoDup. Qed.
Lemma key_ne_logsUrl : KeyColumn c ≠ logsUrlColumn.
Proof. from_NoDup. Qed.
Lemma key_ne_expires : KeyColumn c ≠ expiresColumn.
Proof. from_NoDup. Qed.
Lemma version_ne_meta : VersionColumn c ≠ metaColumn.
Proof. from_NoDup. Qed.
Lemma version_ne_acquired : VersionColumn c ≠ acquiredColumn.
Proof. from_NoDup. Qed.
Lemma version_ne_logsUrl : VersionColumn c ≠ logsUrlColumn.
Proof. from_NoDup. Qed.
Lemma version_ne_expires : VersionColumn c ≠ expiresColumn.
Proof. from_NoDup. Qed.
End Columns.

Lemma meta_ne_acquired : metaColumn ≠ acquiredColumn.
Proof. done. Qed.
Lemma meta_ne_logsUrl : metaColumn ≠ logsUrlColumn.
Proof. done. Qed.
Lemma meta_ne_expires : metaColumn ≠ expiresColumn.
Proof. done. Qed.
Lemma acquired_ne_logsUrl : acquiredColumn ≠ logsUrlColumn.
Proof. done. Qed.
Lemma acquired_ne_expires : acquiredColumn ≠ expiresColumn.
Proof. done. Qed.
Lemma logsUrl_ne_expires : logsUrlColumn ≠ expiresColumn.
Proof. done. Qed.

Create HintDb columns.
#[export] Hint Resolve key_ne_version key_ne_meta key_ne_acquired key_ne_logsUrl
  key_ne_expires version_ne_meta version_ne_acquired version_ne_logsUrl
  version_ne_expires meta_ne_acquired meta_ne_logsUrl meta_ne_expires
  acquired_ne_logsUrl acquired_ne_expires logsUrl_ne_expires : columns.
#[export] Hint Extern 1 (_ ≠ _) => apply not_eq_sym : columns.

(** Looks an attribute up in a row built by a chain of inserts. *)
Ltac lookup_row :=
  repeat first
    [ rewrite lookup_insert_eq
    | rewrite lookup_insert_ne by (solve [eauto 3 with columns])
    | rewrite lookup_empty ].

(** ** The state monad *)

Lemma reliable_head n w : reliable (S n) w → default None (head (faults w)) = None.
Proof.
  unfold reliable. destruct (faults w) as [|f fs]; [done|].
  cbn. by intros [-> _]%Forall_cons.
Qed.

Lemma reliable_tail n w :
  reliable (S n) w → reliable n (set_faults (tail (faults w)) w).
Proof.
  unfold reliable. cbn [faults set_faults].
  destruct (faults w) as [|f fs]; cbn; [by rewrite take_nil|].
  by intros [_ ?]%Forall_cons.
Qed.

Lemma reliable_second n w :
  reliable (S (S n)) w → default None (head (tail (faults w))) = None.
Proof.
  unfold reliable. destruct (faults w) as [|f [|f' fs]]; [done..|].
  cbn. intros [_ [-> _]%Forall_cons]%Forall_cons. done.
Qed.

Lemma call_write_reliable op w :
  default None (head (faults w)) = None →
  call_write op w =
    match op (table w) with
    | Ok rows => (None, set_table rows (set_faults (tail (faults w)) w))
    | Err e => (Some e, set_faults (tail (faults w)) w)
    end.
Proof.
  unfold call_write. destruct (head (faults w)) as [[msg|]|]; cbn; done.
Qed.

Lemma call_write_fault op w msg :
  head (faults w) = Some (Some msg) →
  call_write op w = (Some (Foreign msg), set_faults (tail (faults w)) w).
Proof. unfold call_write. by intros ->. Qed.

Lemma call_read_reliable {A} (op : _ → A) w :
  default None (head (faults w)) = None →
  call_read op w = (Ok (op (table w)), set_faults (tail (faults w)) w).
Proof.
  unfold call_read. destruct (head (faults w)) as [[msg|]|]; cbn; done.
Qed.

Lemma call_write_table op w :
  table (call_write op w).2 = table w
  ∨ ∃ rows, op (table w) = Ok rows ∧ table (call_write op w).2 = rows.
Proof.
  unfold call_write. destruct (head (faults w)) as [[msg|]|]; cbn.
  - by left.
  - destruct (op (table w)) as [rows|e]; cbn; [right; eauto | by left].
  - destruct (op (table w)) as [rows|e]; cbn; [right; eauto | by left].
Qed.

Lemma clock_after_0 w : clock_after 0 w = clock w.
Proof. unfold clock_after. rewrite take_0. cbn [foldr]. change (Z.of_N 0) with 0. lia. Qed.

Lemma clock_after_mono n w : clock w ≤ clock_after n w.
Proof. unfold clock_after. lia. Qed.

Lemma sum_take_mono (ds : list N) n :
  (foldr N.add 0 (take n ds) ≤ foldr N.add 0 (take (S n) ds))%N.
Proof.
  revert ds. induction n as [|n IH]; intros [|d ds]; cbn; try lia.
  specialize (IH ds). lia.
Qed.

Lemma clock_after_S n w : clock_after n w ≤ clock_after (S n) w.
Proof. unfold clock_after. pose proof (sum_take_mono (delays w) n). lia. Qed.

(** ** [gensync] and the counter *)

Section Counter.
Context `{Externals}.

Lemma nextLockCount_eq key w :
  nextLockCount key w =
    (wrap32 (default 0 (lockCounterMap w !! key)),
     set_lockCounterMap
       (<[key := wrap32 (default 0 (lockCounterMap w !! key) + 1)]> (lockCounterMap w))
       w).
Proof.
  unfold nextLockCount, gensync.LoadOrStore.
  destruct (lockCounterMap w !! key) as [c|] eqn:Hk; cbn [fst snd default].
  - by rewrite wrap32_succ_pred.
  - by rewrite wrap32_succ_pred, insert_insert_eq.
Qed.

End Counter.

Lemma bind_run {A B} (m : M A) (k : A → M B) w a w' :
  m w = (a, w') → bind m k w = k a w'.
Proof. unfold bind. by intros ->. Qed.

Lemma time_Now_eq w : time_Now w = (clock_after 1 w, after_read w).
Proof.
  unfold time_Now, after_read, clock_after.
  destruct (delays w) as [|d ds]; cbn [head tail default take foldr];
    by rewrite ?N.add_0_r.
Qed.

Lemma clock_after_read n w : clock_after n (after_read w) = clock_after (S n) w.
Proof.
  unfold after_read, clock_after. cbn [clock delays set_delays set_clock].
  destruct (delays w) as [|d ds]; cbn [tail take foldr].
  - rewrite !take_nil. cbn [foldr]. lia.
  - rewrite take_0. cbn [foldr]. lia.
Qed.

Lemma clock_after_read_0 w : clock (after_read w) = clock_after 1 w.
Proof. done. Qed.

Lemma delays_after_read w : delays (after_read w) = tail (delays w).
Proof. done. Qed.

Lemma drop_3_tail (ds : list N) : tail (tail (tail ds)) = drop 3 ds.
Proof. by destruct ds as [|? [|? [|? ?]]]. Qed.

Lemma clock_after_set_lockCounterMap n m w :
  clock_after n (set_lockCounterMap m w) = clock_after n w.
Proof. done. Qed.

Lemma third_read m w :
  after_read (set_lockCounterMap m (after_read (after_read w)))
  = mkWorld (clock_after 3 w) (drop 3 (delays w)) (faults w) (table w)
      (page_sizes w) m.
Proof.
  unfold after_read at 1. rewrite clock_after_set_lockCounterMap.
  rewrite !clock_after_read.
  cbn [set_delays set_clock set_lockCounterMap after_read clock delays faults
       table page_sizes lockCounterMap].
  by rewrite drop_3_tail.
Qed.

Lemma sum_take_add (ds : list N) m n :
  foldr N.add 0%N (take (m + n) ds)
  = (foldr N.add 0 (take m ds) + foldr N.add 0 (take n (drop m ds)))%N.
Proof.
  revert ds. induction m as [|m IH]; intros ds; cbn [Nat.add].
  - rewrite take_0, drop_0. cbn [foldr]. lia.
  - destruct ds as [|d ds]; cbn [take drop foldr].
    + rewrite !take_nil. cbn [foldr]. lia.
    + rewrite IH. lia.
Qed.

Lemma clock_after_later m n w fs rows ps cm :
  clock_after n (mkWorld (clock_after m w) (drop m (delays w)) fs rows ps cm)
  = clock_after (m + n) w.
Proof.
  unfold clock_after. cbn [clock delays]. rewrite sum_take_add. lia.
Qed.

Section LockFacts.
Context `{Externals} (dl : distributedLocker).
Context (Hc : distinct_columns (config dl)).

Lemma candidate_key ctx key metadata w :
  candidate dl ctx key metadata w !! KeyColumn (config dl)
  = Some (AttributeValueMemberS key).
Proof. unfold candidate. destruct (ctx_lambda ctx); by lookup_row. Qed.

Lemma candidate_version ctx key metadata w :
  candidate dl ctx key metadata w !! VersionColumn (config dl)
  = Some (AttributeValueMemberS (next_version ctx key w)).
Proof. unfold candidate. destruct (ctx_lambda ctx); by lookup_row. Qed.

Lemma candidate_expires ctx key metadata w :
  candidate dl ctx key metadata w !! expiresColumn
  = Some (AttributeValueMemberN
            (gotime.UnixNano (gotime.Add (clock_after 1 w) lockDuration))).
Proof. unfold candidate. destruct (ctx_lambda ctx); by lookup_row. Qed.

Lemma candidate_acquired ctx key metadata w :
  candidate dl ctx key metadata w !! acquiredColumn
  = Some (AttributeValueMemberN (gotime.UnixNano (clock_after 2 w))).
Proof. unfold candidate. destruct (ctx_lambda ctx); by lookup_row. Qed.

Lemma TransformMapWithErr_from_total {A V}
    (f : string → A → Result (string * V)) l r :
  (∀ k v, ∃ kv, f k v = Ok kv) →
  ∃ m, collections.TransformMapWithErr_from f l r = Ok m.
Proof.
  intros Hf. revert r. induction l as [|[k v] l IH]; intros r; cbn; [eauto|].
  destruct (Hf k v) as [[k' v'] ->]. apply IH.
Qed.

Lemma metadataJson_total (metadata : option (gmap string any)) :
  collections.TransformMapWithErr (default ∅ metadata)
    (λ key value,
       match json_Marshal value with
       | Err _ => Ok ("", "")
       | Ok j => Ok (key, j)
       end)
  = Ok (metadataJsonOf metadata).
Proof.
  unfold metadataJsonOf, collections.TransformMapWithErr.
  match goal with
  | |- collections.TransformMapWithErr_from ?f ?l ?r = _ =>
      destruct (TransformMapWithErr_from_total f l r) as [m ->]; [|done]
  end.
  intros k v. destruct (json_Marshal v); eauto.
Qed.

(** What [Lock] does once it is past its preparation: one conditional
    insert, then either the handle or the read-back. *)
Lemma Lock_eq ctx key metadata w :
  prepared ctx metadata →
  default None (head (faults w)) = None →
  Lock dl ctx key metadata w =
    if insert_allowed dl (table w) key (gotime.UnixNano (clock_after 3 w))
    then (mkReturn ctx_passthrough (Some (granted ctx key metadata w)) None None,
          after_insert key (<[key := candidate dl ctx key metadata w]> (table w)) w)
    else
      let (existing, w') :=
        getExistingLock dl ctx key (after_insert key (table w) w) in
      match existing with
      | Err e' => (mkReturn ctx_caller None None (Some e'), w')
      | Ok existingLock => (mkReturn ctx_caller None (Some existingLock) None, w')
      end.
Proof.
  intros [Hurl [meta Hmeta]] Hf.
  unfold Lock.
  rewrite (bind_run _ _ _ _ _ (time_Now_eq w)).
  rewrite (bind_run _ _ _ _ _ (time_Now_eq (after_read w))).
  rewrite clock_after_read.
  unfold granted, candidate, next_version, lockerId, logsUrlOf, metaOf.
  rewrite Hmeta.
  destruct (ctx_lambda ctx) as [lc|] eqn:Hl;
    [destruct (Hurl lc eq_refl) as [url ->]|].
  all: rewrite (bind_run _ _ _ _ _ (nextLockCount_eq key _)).
  all: rewrite (bind_run _ _ _ _ _ (time_Now_eq _)).
  all: unfold bind at 1; rewrite call_write_reliable by exact Hf.
  all: unfold PutItem; lookup_row.
  all: rewrite clock_after_set_lockCounterMap, !clock_after_read, third_read.
  all: cbn [table faults lockCounterMap after_read set_delays set_clock
            set_faults set_table set_lockCounterMap].
  all: fold (insert_allowed dl (table w) key (gotime.UnixNano (clock_after 3 w))).
  all: destruct (insert_allowed dl (table w) key _).
  all: try (rewrite metadataJson_total; reflexivity).
  all: cbn [As_ConditionalCheckFailedException]; unfold bind at 1.
  all: unfold after_insert;
    cbn [set_faults set_table clock delays faults table page_sizes lockCounterMap].
  all: destruct (getExistingLock _ _ _ _) as [[existing|e'] w']; reflexivity.
Qed.

Lemma insert_allowed_spec rows key now :
  keyed (config dl) rows →
  insert_allowed dl rows key now = true ↔ acquirable rows key now.
Proof.
  intros Hk. unfold insert_allowed, acquirable.
  cbn [eval operand]. rewrite orb_true_iff, bool_decide_eq_true.
  destruct (rows !! key) as [item|] eqn:Hrow; cbn [default from_option id].
  - rewrite (Hk _ _ Hrow). split.
    + intros [?|Hle]; [done|]. right. exists item.
      destruct (item !! expiresColumn) as [[?|e|?]|]; try done.
      exists e. cbn in Hle. apply Z.leb_le in Hle. done.
    + intros [?|(item' & e & [= <-] & -> & Hle)]; [done|].
      right. cbn. by apply Z.leb_le.
  - rewrite lookup_empty. split; [by left | by left].
Qed.

Lemma insert_allowed_false rows key now :
  keyed (config dl) rows →
  insert_allowed dl rows key now = false ↔ ¬ acquirable rows key now.
Proof.
  intros Hk. rewrite <- (insert_allowed_spec _ _ _ Hk).
  by destruct (insert_allowed dl rows key now).
Qed.

(** [parseLockData] either fails without reading the clock, or reads
    it once and succeeds. *)
Lemma parseLockData_cases item w :
  (∃ e, parseLockData dl item w = (Err e, w))
  ∨ (∃ ld, parseLockData dl item w = (Ok ld, after_read w)).
Proof.
  unfold parseLockData.
  repeat match goal with
         | |- context [match ?x with Some _ => _ | None => _ end] =>
             destruct x; [|left; eexists; reflexivity]
         end.
  right. rewrite (bind_run _ _ _ _ _ (time_Now_eq w)). eexists. reflexivity.
Qed.

Lemma parseLockData_well_formed k v a e item w :
  item !! KeyColumn (config dl) = Some (AttributeValueMemberS k) →
  item !! VersionColumn (config dl) = Some (AttributeValueMemberS v) →
  item !! acquiredColumn = Some (AttributeValueMemberN a) → is_int64 a = true →
  item !! expiresColumn = Some (AttributeValueMemberN e) → is_int64 e = true →
  ∃ ld, parseLockData dl item w = (Ok ld, after_read w)
        ∧ Key ld = k ∧ Version ld = v
        ∧ Acquired ld = dateutils.TimeFromUnix a
        ∧ Expires ld = dateutils.TimeFromUnix e
        ∧ Active ld = gotime.After (dateutils.TimeFromUnix e) (clock_after 1 w).
Proof.
  intros Hk Hv Ha Hia He Hie. unfold parseLockData.
  rewrite Hk, Hv, Ha, He. cbn [attributevalue.Unmarshal_string attributevalue.Unmarshal_int64].
  rewrite Hia, Hie. rewrite (bind_run _ _ _ _ _ (time_Now_eq w)).
  eexists. split; [reflexivity|]. done.
Qed.

Lemma parseLockData_table item w :
  table (parseLockData dl item w).2 = table w.
Proof.
  destruct (parseLockData_cases item w) as [[e ->]|[ld ->]]; done.
Qed.

Lemma getExistingLock_table ctx key w :
  table (getExistingLock dl ctx key w).2 = table w.
Proof.
  unfold getExistingLock, bind, call_read.
  destruct (head (faults w)) as [[msg|]|]; cbn [ret snd]; try done.
  all: match goal with
       | |- context [parseLockData dl ?i ?w'] =>
           pose proof (parseLockData_table i w') as Hp;
           destruct (parseLockData dl i w') as [[ld|e] w'']
       end; cbn in *; by rewrite Hp.
Qed.

Lemma getExistingLock_reliable ctx key w :
  default None (head (faults w)) = None →
  getExistingLock dl ctx key w =
    let (parsed, w') :=
      parseLockData dl (default ∅ (table w !! key)) (set_faults (tail (faults w)) w) in
    (match parsed with
     | Err serr => Err (With serr [("key", FString key)])
     | Ok existingLockData => Ok existingLockData
     end, w').
Proof.
  intros Hf. unfold getExistingLock.
  rewrite (bind_run _ _ _ _ _ (call_read_reliable _ _ Hf)).
  unfold bind, GetItem.
  by destruct (parseLockData _ _ _) as [[ld|e] w'].
Qed.

End LockFacts.

(** ** Acquisition *)

Section Acquisition.
Context `{Externals} (dl : distributedLocker).

(** C1.  Whenever [Lock] issues its conditional insert and the transport
    delivers it, the insert succeeds exactly when no row exists for the
    key or the existing row's expiry is a number less than or equal to
    the time sent with the request.  On success the row, expired or
    absent, is replaced by the candidate row and the handle is returned;
    otherwise the table is left as it was and no handle is returned. *)
Theorem C1_insert_iff_absent_or_expired ctx key metadata w :
  distinct_columns (config dl) →
  keyed (config dl) (table w) →
  prepared ctx metadata →
  reliable 1 w →
  let r := Lock dl ctx key metadata w in
  let now := gotime.UnixNano (clock_after 3 w) in
  (acquirable (table w) key now →
     newLock r.1 = Some (granted ctx key metadata w)
     ∧ table r.2 = <[key := candidate dl ctx key metadata w]> (table w))
  ∧ (¬ acquirable (table w) key now →
     newLock r.1 = None ∧ table r.2 = table w).
Proof.
  intros Hc Hk Hp Hr r now. subst r now.
  rewrite (Lock_eq dl Hc _ _ _ _ Hp (reliable_head _ _ Hr)).
  split.
  - intros Ha. apply (insert_allowed_spec dl _ _ _ Hk) in Ha. by rewrite Ha.
  - intros Ha. apply (insert_allowed_false dl _ _ _ Hk) in Ha. rewrite Ha.
    pose proof (getExistingLock_table dl ctx key
                  (after_insert key (table w) w)) as Ht.
    destruct (getExistingLock _ _ _ _) as [[ld|e] w']; cbn in *; by rewrite Ht.
Qed.


End Acquisition.

Lemma example_prepared :
  prepared (H := example.externals) example.background None.
Proof. split; [intros lc [=] | by eexists]. Qed.

Lemma example_reliable n w : faults w = [] → reliable n w.
Proof. unfold reliable. intros ->. rewrite take_nil. constructor. Qed.

(** B asks for A's lock 25 seconds after A took it and stopped renewing
    it: the row is still there, and B's insert replaces it. *)
Lemma C1_insert_iff_absent_or_expired_witness :
  let w := elapse (example.seconds 25) example.A_locks.2 in
  let r := Lock (H := example.externals) example.locker example.background
             "job-7" None w in
  is_Some (table w !! "job-7")
  ∧ newLock r.1 = Some (granted (H := example.externals) example.background "job-7" None w)
  ∧ table r.2
    = <["job-7" := candidate (H := example.externals) example.locker
                     example.background "job-7" None w]> (table w).
Proof.
  split; [by eexists|].
  destruct (C1_insert_iff_absent_or_expired (H := example.externals) example.locker
              example.background "job-7" None
              (elapse (example.seconds 25) example.A_locks.2)) as [Hyes _].
  - compute_done.
  - compute_done.
  - exact example_prepared.
  - by apply example_reliable.
  - apply Hyes. right.
    exists (candidate (H := example.externals) example.locker example.background
              "job-7" None example.start), 1700000020000000000.
    repeat split; [reflexivity..|vm_compute; discriminate].
Defined.


(** ** Renewal and release *)

Section Fencing.
Context `{Externals} (dl : distributedLocker).

Lemma still_owned_spec rows key v :
  still_owned dl rows key v = true
  ↔ version_at (config dl) rows key = Some (AttributeValueMemberS v).
Proof.
  unfold still_owned, version_at. cbn [eval operand].
  destruct (rows !! key) as [item|]; cbn [default from_option id].
  - destruct (item !! VersionColumn (config dl)) as [x|]; cbn; [|done].
    rewrite bool_decide_eq_true. split; congruence.
  - by rewrite lookup_empty.
Qed.

Lemma UpdateItem_eq rows key v e :
  UpdateItem (KeyColumn (config dl)) key expiresColumn (AttributeValueMemberN e)
    (Eq (Path (VersionColumn (config dl))) (Lit (AttributeValueMemberS v))) rows
  = if still_owned dl rows key v then Ok (with_expiry dl rows key e)
    else Err ConditionalCheckFailedException.
Proof. done. Qed.

Lemma heartbeat_timer_returned l w e :
  heartbeat l = Returned e → heartbeat_timer dl l w = (l, w).
Proof. unfold heartbeat_timer. by intros ->. Qed.

Lemma heartbeat_timer_eq l start w :
  heartbeat l = Running start →
  default None (head (faults w)) = None →
  heartbeat_timer dl l w =
    let w1 := set_faults (tail (faults w)) (at_renewal start w) in
    if still_owned dl (table w) (key (data l)) (version (data l))
    then (heartbeat_rearm (clock w1) l,
          set_table (with_expiry dl (table w) (key (data l))
                       (gotime.UnixNano (gotime.Add (clock w1) heartbeatInterval)))
                    w1)
    else
      let (existing, w') := getExistingLock dl (ctx l) (key (data l)) w1 in
      (heartbeat_return
         (Some match existing with
               | Err e' => e'
               | Ok existingLock => lease_lost existingLock
               end) l, w').
Proof.
  intros Hh Hf. unfold heartbeat_timer. rewrite Hh.
  unfold bind at 1. cbv beta iota.
  rewrite (bind_run _ _ _ _ _ (time_Now_eq _)).
  unfold bind at 1. rewrite call_write_reliable by exact Hf.
  rewrite UpdateItem_eq. fold (at_renewal start w).
  cbn [table after_read at_renewal timer_C set_clock set_delays].
  destruct (still_owned dl (table w) _ _).
  - reflexivity.
  - cbn [As_ConditionalCheckFailedException]. unfold bind at 1.
    cbn [faults after_read at_renewal timer_C set_clock set_delays].
    by destruct (getExistingLock _ _ _ _) as [[ld|e'] w'].
Qed.

Lemma heartbeat_timer_fault l start w msg :
  heartbeat l = Running start →
  head (faults w) = Some (Some msg) →
  heartbeat_timer dl l w =
    (heartbeat_return (Some (Foreign msg)) l,
     set_faults (tail (faults w)) (at_renewal start w)).
Proof.
  intros Hh Hf. unfold heartbeat_timer. rewrite Hh.
  unfold bind at 1. cbv beta iota.
  rewrite (bind_run _ _ _ _ _ (time_Now_eq _)).
  unfold bind at 1. rewrite (call_write_fault _ _ msg) by exact Hf.
  reflexivity.
Qed.

Lemma Unlock_eq ctx' l w :
  default None (head (faults w)) = None →
  Unlock dl ctx' l w =
    let l' := heartbeat_done (unlockCtxCancel l) in
    let w1 := set_faults (tail (faults w)) (after_read w) in
    if still_owned dl (table w) (key (data l)) (version (data l))
    then (match heartbeat l' with Returned e => e | Running _ => None end, l',
          set_table (with_expiry dl (table w) (key (data l))
                       (gotime.UnixNano (clock w1))) w1)
    else (Some (not_locked (key (data l))), l', w1).
Proof.
  intros Hf. unfold Unlock.
  rewrite (bind_run _ _ _ _ _ (time_Now_eq _)).
  unfold bind at 1. rewrite call_write_reliable by exact Hf.
  rewrite UpdateItem_eq.
  assert (Hd : data (heartbeat_done (unlockCtxCancel l)) = data l).
  { unfold heartbeat_done, unlockCtxCancel, heartbeat_return.
    cbn [heartbeat locked ctx data].
    by repeat match goal with |- context [match ?x with _ => _ end] => destruct x end. }
  rewrite !Hd. cbn [table after_read set_clock set_delays].
  by destruct (still_owned dl (table w) _ _).
Qed.

Lemma Unlock_fault ctx' l w msg :
  head (faults w) = Some (Some msg) →
  Unlock dl ctx' l w =
    (Some (Foreign msg), heartbeat_done (unlockCtxCancel l),
     set_faults (tail (faults w)) (after_read w)).
Proof.
  intros Hf. unfold Unlock.
  rewrite (bind_run _ _ _ _ _ (time_Now_eq _)).
  unfold bind at 1. rewrite (call_write_fault _ _ msg) by exact Hf.
  reflexivity.
Qed.


Lemma heartbeat_timer_table l w :
  table (heartbeat_timer dl l w).2 = table w
  ∨ still_owned dl (table w) (key (data l)) (version (data l)) = true.
Proof.
  destruct (heartbeat l) as [start|e] eqn:Hh.
  - destruct (head (faults w)) as [[msg|]|] eqn:Hf.
    + left. by rewrite (heartbeat_timer_fault _ _ _ _ Hh Hf).
    + rewrite (heartbeat_timer_eq _ _ _ Hh) by (by rewrite Hf).
      cbv zeta. destruct (still_owned dl _ _ _); [by right|left].
      rewrite (surjective_pairing (getExistingLock _ _ _ _)). cbn [snd].
      by rewrite getExistingLock_table.
    + rewrite (heartbeat_timer_eq _ _ _ Hh) by (by rewrite Hf).
      cbv zeta. destruct (still_owned dl _ _ _); [by right|left].
      rewrite (surjective_pairing (getExistingLock _ _ _ _)). cbn [snd].
      by rewrite getExistingLock_table.
  - left. by rewrite (heartbeat_timer_returned _ _ _ Hh).
Qed.

Lemma Unlock_table ctx' l w :
  table (Unlock dl ctx' l w).2 = table w
  ∨ still_owned dl (table w) (key (data l)) (version (data l)) = true.
Proof.
  destruct (head (faults w)) as [[msg|]|] eqn:Hf.
  - left. by rewrite (Unlock_fault _ _ _ _ Hf).
  - rewrite Unlock_eq by (by rewrite Hf).
    cbv zeta. destruct (still_owned dl _ _ _); [by right|by left].
  - rewrite Unlock_eq by (by rewrite Hf).
    cbv zeta. destruct (still_owned dl _ _ _); [by right|by left].
Qed.

Lemma stale_not_owned rows key item v a e v' :
  rows !! key = Some item →
  row_has (config dl) item key v a e →
  v ≠ v' →
  still_owned dl rows key v' = false.
Proof.
  intros Hrow (_ & Hv & _) Hne.
  destruct (still_owned dl rows key v') eqn:Ho; [|done].
  apply still_owned_spec in Ho. unfold version_at in Ho.
  rewrite Hrow, Hv in Ho. congruence.
Qed.

(** C2.  A renewal or a release changes the table only if the row of
    the handle's key carries the handle's version.  When the row carries
    another holder's version, a renewal by the handle leaves the table
    as it is, makes the heartbeat return an error and cancels the
    passthrough context, and a release by the handle leaves the table as
    it is and returns an error, whatever the transport does; when the
    transport is reliable, the error of the renewal is the lease-lost
    error naming the other version and the error of the release is the
    not-currently-locked error. *)
Theorem C2_stale_handle_is_fenced l w :
  (table (heartbeat_timer dl l w).2 ≠ table w →
     version_at (config dl) (table w) (key (data l))
     = Some (AttributeValueMemberS (version (data l))))
  ∧ (∀ ctx', table (Unlock dl ctx' l w).2 ≠ table w →
       version_at (config dl) (table w) (key (data l))
       = Some (AttributeValueMemberS (version (data l))))
  ∧ (∀ item v a e,
       table w !! key (data l) = Some item →
       row_has (config dl) item (key (data l)) v a e →
       v ≠ version (data l) →
       (∀ start, heartbeat l = Running start →
          let r := heartbeat_timer dl l w in
          table r.2 = table w
          ∧ passthroughCtxCancelled r.1 = true
          ∧ (∃ e, heartbeat r.1 = Returned (Some e))
          ∧ (reliable 2 w →
             ∃ existing, Version existing = v
               ∧ heartbeat r.1 = Returned (Some (lease_lost existing))))
       ∧ (∀ ctx',
          let r := Unlock dl ctx' l w in
          table r.2 = table w
          ∧ is_Some r.1.1
          ∧ (reliable 1 w → r.1.1 = Some (not_locked (key (data l)))))).
Proof.
  split; [|split].
  - intros Hne. destruct (heartbeat_timer_table l w) as [?|Ho]; [done|].
    by apply still_owned_spec.
  - intros ctx' Hne. destruct (Unlock_table ctx' l w) as [?|Ho]; [done|].
    by apply still_owned_spec.
  - intros item v a e Hrow Hhas Hne.
    pose proof (stale_not_owned _ _ _ _ _ _ _ Hrow Hhas Hne) as Hno.
    split.
    + intros start Hh r. subst r.
      split; [|split; [|split]].
      * destruct (heartbeat_timer_table l w) as [?|Ho]; [done|congruence].
      * destruct (head (faults w)) as [[msg|]|] eqn:Hf.
        -- by rewrite (heartbeat_timer_fault _ _ _ _ Hh Hf).
        -- rewrite (heartbeat_timer_eq _ _ _ Hh) by (by rewrite Hf).
           cbv zeta. rewrite Hno. by destruct (getExistingLock _ _ _ _).
        -- rewrite (heartbeat_timer_eq _ _ _ Hh) by (by rewrite Hf).
           cbv zeta. rewrite Hno. by destruct (getExistingLock _ _ _ _).
      * destruct (head (faults w)) as [[msg|]|] eqn:Hf.
        -- rewrite (heartbeat_timer_fault _ _ _ _ Hh Hf). cbn. eauto.
        -- rewrite (heartbeat_timer_eq _ _ _ Hh) by (by rewrite Hf).
           cbv zeta. rewrite Hno. destruct (getExistingLock _ _ _ _). cbn. eauto.
        -- rewrite (heartbeat_timer_eq _ _ _ Hh) by (by rewrite Hf).
           cbv zeta. rewrite Hno. destruct (getExistingLock _ _ _ _). cbn. eauto.
      * intros Hr.
        rewrite (heartbeat_timer_eq _ _ _ Hh (reliable_head _ _ Hr)).
        cbv zeta. rewrite Hno.
        rewrite getExistingLock_reliable
          by (cbn [faults set_faults]; exact (reliable_second _ _ Hr)).
        cbn [table set_faults at_renewal after_read timer_C set_clock set_delays].
        rewrite Hrow. cbn [default from_option id].
        destruct Hhas as (Hk & Hv & Ha & He & Hia & Hie).
        match goal with
        | |- context [parseLockData dl item ?w'] =>
            destruct (parseLockData_well_formed dl _ v a e item w' Hk Hv Ha Hia He Hie)
              as (ld & -> & Hld)
        end.
        cbn [fst snd]. exists ld. by destruct Hld as (_ & -> & _).
    + intros ctx' r. subst r.
      split; [|split].
      * destruct (Unlock_table ctx' l w) as [?|Ho]; [done|congruence].
      * destruct (head (faults w)) as [[msg|]|] eqn:Hf.
        -- by rewrite (Unlock_fault _ _ _ _ Hf).
        -- rewrite Unlock_eq by (by rewrite Hf). cbv zeta. by rewrite Hno.
        -- rewrite Unlock_eq by (by rewrite Hf). cbv zeta. by rewrite Hno.
      * intros Hr. rewrite (Unlock_eq _ _ _ (reliable_head _ _ Hr)).
        cbv zeta. by rewrite Hno.
Qed.

End Fencing.

(** ** The expiry written by the heartbeat *)

Section Renewal.
Context `{Externals} (dl : distributedLocker).

Lemma expires_at_with_expiry rows key e :
  expires_at (with_expiry dl rows key e) key = Some e.
Proof. unfold expires_at, with_expiry. by rewrite !lookup_insert_eq. Qed.

Lemma heartbeat_return_not_running e l start :
  heartbeat (heartbeat_return e l) ≠ Running start.
Proof. done. Qed.

Lemma clock_at_renewal start w :
  Z.max (clock w) (start + heartbeatInterval) ≤ clock (at_renewal start w).
Proof.
  unfold at_renewal. rewrite clock_after_read_0.
  etrans; [|apply clock_after_mono]. done.
Qed.

(** A turn of the heartbeat that leaves it running was a renewal that
    went through: at a time [now] at least [heartbeatInterval] after the
    timer was created, it wrote [now + heartbeatInterval] in [int64]
    and created the next timer. *)
Lemma heartbeat_timer_running l w start' :
  heartbeat (heartbeat_timer dl l w).1 = Running start' →
  ∃ start,
    heartbeat l = Running start
    ∧ start' = clock (at_renewal start w)
    ∧ heartbeat_timer dl l w
      = (heartbeat_rearm start' l,
         set_table
           (with_expiry dl (table w) (key (data l))
              (gotime.UnixNano (gotime.Add start' heartbeatInterval)))
           (set_faults (tail (faults w)) (at_renewal start w))).
Proof.
  destruct (heartbeat l) as [start|e] eqn:Hh.
  - destruct (head (faults w)) as [[msg|]|] eqn:Hf.
    + by rewrite (heartbeat_timer_fault _ _ _ _ _ Hh Hf).
    + rewrite (heartbeat_timer_eq _ _ _ _ Hh) by (by rewrite Hf).
      cbv zeta. destruct (still_owned dl _ _ _).
      * cbn. intros [= <-]. eauto.
      * by destruct (getExistingLock _ _ _ _).
    + rewrite (heartbeat_timer_eq _ _ _ _ Hh) by (by rewrite Hf).
      cbv zeta. destruct (still_owned dl _ _ _).
      * cbn. intros [= <-]. eauto.
      * by destruct (getExistingLock _ _ _ _).
  - rewrite (heartbeat_timer_returned _ _ _ _ Hh). cbn [fst]. by rewrite Hh.
Qed.

Lemma heartbeats_returned n l w e :
  heartbeat l = Returned e →
  heartbeat (heartbeats dl n l w).2.1 = Returned e.
Proof.
  revert l w. induction n as [|n IH]; intros l w Hh; cbn [heartbeats]; [done|].
  rewrite (heartbeat_timer_returned _ _ _ _ Hh).
  specialize (IH l w Hh).
  by destruct (heartbeats dl n l w) as [seen final].
Qed.

Lemma heartbeatInterval_eq : heartbeatInterval = 10000000000.
Proof. reflexivity. Qed.

Lemma lockDuration_eq : lockDuration = 20000000000.
Proof. reflexivity. Qed.

Lemma heartbeats_start_mono n :
  ∀ l w start final_start,
    heartbeat l = Running start →
    heartbeat (heartbeats dl n l w).2.1 = Running final_start →
    start ≤ final_start.
Proof.
  induction n as [|n IH]; intros l w start final_start Hh Hfin.
  - cbn [heartbeats fst snd] in Hfin. assert (start = final_start) by congruence. lia.
  - cbn [heartbeats] in Hfin.
    destruct (heartbeat_timer dl l w) as [l' w'] eqn:Hstep.
    destruct (heartbeats dl n l' w') as [seen final] eqn:Hrest.
    cbn [fst snd] in Hfin.
    destruct (heartbeat l') as [start'|e'] eqn:Hh'.
    2:{ pose proof (heartbeats_returned n l' w' e' Hh') as Hr.
        rewrite Hrest in Hr. cbn [fst snd] in Hr. congruence. }
    pose proof (heartbeat_timer_running l w start') as Hrun.
    rewrite Hstep in Hrun. cbn [fst] in Hrun.
    destruct (Hrun Hh') as (start0 & Hh0 & Hstart' & _).
    assert (start0 = start) as -> by congruence.
    pose proof (clock_at_renewal start w) as Hclock.
    rewrite <- Hstart', heartbeatInterval_eq in Hclock.
    specialize (IH l' w' start' final_start Hh').
    rewrite Hrest in IH. specialize (IH Hfin). lia.
Qed.

(** The expiries a running heartbeat writes never fall below the one
    it found, as long as they fit in [int64]. *)
Lemma heartbeats_sorted n :
  ∀ l w start e final_start,
    heartbeat l = Running start →
    expires_at (table w) (key (data l)) = Some e →
    e ≤ start + lockDuration →
    MinInt64 ≤ start →
    heartbeat (heartbeats dl n l w).2.1 = Running final_start →
    final_start + lockDuration ≤ MaxInt64 →
    ∃ es, (heartbeats dl n l w).1 = Some <$> es
          ∧ length es = n
          ∧ Sorted Z.le (e :: es).
Proof.
  induction n as [|n IH]; intros l w start e final_start Hh He Hle Hmin Hfin Hmax.
  - exists []. cbn [heartbeats fst snd] in *.
    repeat split. by repeat constructor.
  - pose proof (heartbeats_start_mono (S n) l w start final_start Hh Hfin) as Hmono.
    cbn [heartbeats] in *.
    destruct (heartbeat_timer dl l w) as [l' w'] eqn:Hstep.
    destruct (heartbeats dl n l' w') as [seen final] eqn:Hrest.
    cbn [fst snd] in *.
    destruct (heartbeat l') as [start'|e'] eqn:Hh'.
    2:{ pose proof (heartbeats_returned n l' w' e' Hh') as Hr.
        rewrite Hrest in Hr. cbn [fst snd] in Hr. congruence. }
    pose proof (heartbeat_timer_running l w start') as Hrun.
    rewrite Hstep in Hrun. cbn [fst] in Hrun.
    destruct (Hrun Hh') as (start0 & Hh0 & Hstart' & [= Hl' Hw']).
    assert (start0 = start) as -> by congruence.
    pose proof (clock_at_renewal start w) as Hclock.
    rewrite <- Hstart', heartbeatInterval_eq in Hclock.
    pose proof (heartbeats_start_mono n l' w' start' final_start Hh') as Hmono'.
    rewrite Hrest in Hmono'. specialize (Hmono' Hfin).
    rewrite lockDuration_eq in *.
    assert (Hwrap : gotime.UnixNano (gotime.Add start' heartbeatInterval)
                    = start' + 10000000000).
    { unfold gotime.UnixNano, gotime.Add. rewrite heartbeatInterval_eq.
      apply wrap64_id. unfold MinInt64, MaxInt64 in *. lia. }
    assert (Hd : data l' = data l) by (by rewrite Hl').
    assert (He' : expires_at (table w') (key (data l')) = Some (start' + 10000000000)).
    { rewrite Hd, Hw', <- Hwrap. cbn [table set_table]. apply expires_at_with_expiry. }
    specialize (IH l' w' start' _ final_start Hh' He').
    rewrite Hrest in IH. cbn [fst snd] in IH.
    destruct IH as (es & -> & Hlen & Hsorted); [lia|lia|done|lia|].
    exists ((start' + 10000000000) :: es). rewrite Hd in He'. rewrite He'.
    repeat split; [cbn; lia|].
    constructor; [done|]. constructor. lia.
Qed.


(** C8.  After a successful [Lock], as long as the heartbeat keeps
    running (every renewal so far went through) and the clock stays in
    the range of [UnixNano], the expiry written by [Lock], now plus the
    lease duration, followed by the expiries written by the renewals, is
    a non-decreasing sequence. *)
Theorem C8_expiry_never_decreases ctx key metadata w n l final_start :
  distinct_columns (config dl) →
  prepared ctx metadata →
  reliable 1 w →
  newLock (Lock dl ctx key metadata w).1 = Some l →
  heartbeat (heartbeats dl n l (Lock dl ctx key metadata w).2).2.1
  = Running final_start →
  MinInt64 ≤ clock w →
  final_start + lockDuration ≤ MaxInt64 →
  ∃ es,
    expires_at (table (Lock dl ctx key metadata w).2) key
    = Some (clock_after 1 w + lockDuration)
    ∧ (heartbeats dl n l (Lock dl ctx key metadata w).2).1 = Some <$> es
    ∧ length es = n
    ∧ Sorted Z.le ((clock_after 1 w + lockDuration) :: es).
Proof.
  intros Hc Hp Hr. rewrite (Lock_eq dl Hc _ _ _ _ Hp (reliable_head _ _ Hr)).
  destruct (insert_allowed dl _ _ _).
  2:{ by destruct (getExistingLock _ _ _ _) as [[ld|e] w']. }
  cbn [fst snd newLock]. intros [= <-] Hfin Hmin Hmax.
  pose proof (heartbeats_start_mono n (granted ctx key metadata w) _
                (clock_after 3 w) final_start eq_refl Hfin) as Hmono.
  pose proof (clock_after_mono 1 w). pose proof (clock_after_S 1 w).
  pose proof (clock_after_S 2 w).
  rewrite lockDuration_eq in *.
  assert (He : expires_at
                 (table (after_insert key
                           (<[key:=candidate dl ctx key metadata w]> (table w)) w))
                 key = Some (clock_after 1 w + 20000000000)).
  { unfold expires_at, after_insert. cbn [table].
    rewrite lookup_insert_eq, (candidate_expires dl Hc).
    unfold gotime.UnixNano, gotime.Add. rewrite lockDuration_eq.
    rewrite wrap64_id; [done|]. unfold MinInt64, MaxInt64 in *. lia. }
  destruct (heartbeats_sorted n (granted ctx key metadata w) _
              (clock_after 3 w) _ final_start eq_refl He) as (es & Hes & Hlen & Hs);
    rewrite ?lockDuration_eq; try lia; [done|].
  exists es. done.
Qed.

End Renewal.

(** C4.  The scenario of the specification with one second as the time
    unit: A takes ["job-7"] at t = 0 and the row expires at t = 20; the
    heartbeat fires at t = 10, its renewal goes through, and the row still
    expires at t = 20, not at t = 30: a renewal writes the time of the
    heartbeat plus the heartbeat interval, half the lease duration.  So at
    t = 20, when A's next heartbeat is due, the row counts as expired and
    another caller's [Lock] takes it. *)
Theorem C4_heartbeat_at_10_renews_to_20 :
  let acquired :=
    Lock (H := example.externals) example.locker example.background "job-7" None
      (mkWorld 0 [] [] ∅ [] ∅) in
  let A := default example.no_lock (newLock acquired.1) in
  let renewed := heartbeat_timer (H := example.externals) example.locker A acquired.2 in
  let B_at_20 :=
    Lock (H := example.externals) example.locker example.invocation "job-7" None
      (elapse (example.seconds 10) renewed.2) in
  heartbeat A = Running 0
  ∧ expires_at (table acquired.2) "job-7" = Some (20 * gotime.Second)
  ∧ clock renewed.2 = 10 * gotime.Second
  ∧ heartbeat renewed.1 = Running (10 * gotime.Second)
  ∧ expires_at (table renewed.2) "job-7" = Some (20 * gotime.Second)
  ∧ expires_at (table renewed.2) "job-7" ≠ Some (clock renewed.2 + lockDuration)
  ∧ is_Some (newLock B_at_20.1).
Proof. vm_compute. repeat split; eauto; discriminate. Qed.

(** ** The handle *)

Lemma TimeFromUnix_not_zero u :
  is_int64 u = true → dateutils.TimeFromUnix u ≠ gotime.zero.
Proof.
  intros [Hlo Hhi]%is_int64_spec.
  unfold dateutils.TimeFromUnix, numbers.Abs, gotime.zero, gotime.Unix,
    gotime.UnixMilli, gotime.UnixMicro, gotime.Second, MaxInt32, MinInt64, MaxInt64 in *.
  assert (Hw : (u <? 0) = true → wrap64 (u * -1) = (- u) ∨ u = (- 2 ^ 63)).
  { intros Hneg%Z.ltb_lt. destruct (decide (u = (- 2 ^ 63))); [by right|left].
    replace (u * -1) with (- u) by lia. apply wrap64_id.
    unfold MinInt64, MaxInt64. lia. }
  pose proof (Z.quot_rem' u 1000000000) as Hqr.
  destruct (u <? 0) eqn:Hneg.
  - destruct (Hw eq_refl) as [-> | ->].
    + repeat case_match; rewrite ?Z.leb_le, ?Z.leb_gt in *; lia.
    + vm_compute. discriminate.
  - apply Z.ltb_ge in Hneg.
    repeat case_match; rewrite ?Z.leb_le, ?Z.leb_gt in *; lia.
Qed.

Section Handle.
Context `{Externals} (dl : distributedLocker).

(** Whatever path [Lock] takes, a handle it returns was built with the
    zero expiry, the active flag set, and a running heartbeat. *)
Lemma Lock_newLock ctx key metadata w l :
  newLock (Lock dl ctx key metadata w).1 = Some l →
  Key (data l) = key ∧ Expires (data l) = gotime.zero ∧ Active (data l) = true
  ∧ locked l = true ∧ lock.ctx l = ctx
  ∧ unlockCtxCancelled l = false ∧ passthroughCtxCancelled l = false.
Proof.
  unfold Lock, bind, ret, get_clock.
  repeat match goal with
         | |- context [let (_, _) := ?x in _] => destruct x
         | |- context [match ?x with _ => _ end] => destruct x
         end; cbn [fst newLock]; intros [= <-]; done.
Qed.

Lemma heartbeat_return_data e l : data (heartbeat_return e l) = data l.
Proof. done. Qed.

Lemma heartbeat_done_data l : data (heartbeat_done l) = data l.
Proof.
  unfold heartbeat_done.
  by repeat match goal with |- context [match ?x with _ => _ end] => destruct x end.
Qed.

Lemma heartbeat_timer_data l w : data (heartbeat_timer dl l w).1 = data l.
Proof.
  unfold heartbeat_timer, bind, ret, get_clock.
  repeat match goal with
         | |- context [let (_, _) := ?x in _] => destruct x
         | |- context [match ?x with _ => _ end] => destruct x
         end; done.
Qed.

Lemma Unlock_data ctx' l w : data (Unlock dl ctx' l w).1.2 = data l.
Proof.
  unfold Unlock, bind, ret.
  repeat match goal with
         | |- context [let (_, _) := ?x in _] => destruct x
         | |- context [match ?x with _ => _ end] => destruct x
         end; cbn [fst snd]; by rewrite heartbeat_done_data.
Qed.

Lemma later_data l l' : later dl l l' → data l' = data l.
Proof.
  induction 1 as [|l' w _ IH|l' _ IH|l' ctx' w _ IH|l' e _ IH]; [done|..].
  - by rewrite heartbeat_timer_data.
  - by rewrite heartbeat_done_data.
  - by rewrite Unlock_data.
  - done.
Qed.

Lemma parseLockData_expires item w ld :
  (parseLockData dl item w).1 = Ok ld →
  ∃ e, item !! expiresColumn = Some (AttributeValueMemberN e)
       ∧ is_int64 e = true
       ∧ Expires ld = dateutils.TimeFromUnix e.
Proof.
  unfold parseLockData.
  destruct (item !! KeyColumn (config dl)) as [kv|]; [|done].
  destruct (attributevalue.Unmarshal_string kv); [|done].
  destruct (item !! VersionColumn (config dl)) as [vv|]; [|done].
  destruct (attributevalue.Unmarshal_string vv); [|done].
  destruct (item !! acquiredColumn) as [av|]; [|done].
  destruct (attributevalue.Unmarshal_int64 av); [|done].
  destruct (item !! expiresColumn) as [[txt|e|b]|]; try done.
  cbn [attributevalue.Unmarshal_int64].
  destruct (is_int64 e) eqn:He; [|done].
  rewrite (bind_run _ _ _ _ _ (time_Now_eq w)). cbn [ret fst].
  intros [= <-]. exists e. done.
Qed.

(** C10.  The handle a successful [Lock] returns reports the zero time
    as its expiry and [true] as its active flag, and so does every later
    state of that handle, whatever turns its heartbeat took, whether it
    was released or its context cancelled, and whenever the accessors are
    called.  A [LockData] decoded from a row reports the row's expiry,
    which is never the zero time. *)
Theorem C10_held_lock_has_no_expiry ctx key metadata w l :
  newLock (Lock dl ctx key metadata w).1 = Some l →
  (∀ l', later dl l l' →
         Expires (data l') = gotime.zero ∧ Active (data l') = true)
  ∧ (∀ item w' ld,
       (parseLockData dl item w').1 = Ok ld →
       ∃ e, item !! expiresColumn = Some (AttributeValueMemberN e)
            ∧ Expires ld = dateutils.TimeFromUnix e
            ∧ Expires ld ≠ gotime.zero).
Proof.
  intros Hl. apply Lock_newLock in Hl as (_ & Hexp & Hact & _).
  split.
  - intros l' Hlater. by rewrite (later_data _ _ Hlater).
  - intros item w' ld Hparse.
    destruct (parseLockData_expires _ _ _ Hparse) as (e & He & Hi & Hld).
    exists e. repeat split; [done..|].
    rewrite Hld. by apply TimeFromUnix_not_zero.
Qed.

End Handle.

(** ** Release and the passthrough context *)

Section Release.
Context `{Externals} (dl : distributedLocker).

Lemma heartbeat_done_after_cancel l :
  ∃ e, heartbeat (heartbeat_done (unlockCtxCancel l)) = Returned e.
Proof.
  unfold heartbeat_done, unlockCtxCancel, unlockCtx_Done.
  cbn [heartbeat unlockCtxCancelled orb locked].
  destruct (heartbeat l) as [start|e]; [|by eauto].
  destruct (locked l); by eauto.
Qed.

Lemma heartbeat_done_returned l e :
  heartbeat l = Returned e → heartbeat_done (unlockCtxCancel l) = unlockCtxCancel l.
Proof. unfold heartbeat_done, unlockCtxCancel. cbn [heartbeat]. by intros ->. Qed.

Lemma version_at_with_expiry rows key e :
  VersionColumn (config dl) ≠ expiresColumn →
  is_Some (rows !! key) →
  version_at (config dl) (with_expiry dl rows key e) key
  = version_at (config dl) rows key.
Proof.
  intros Hne [item Hrow]. unfold version_at, with_expiry.
  rewrite lookup_insert_eq, Hrow. cbn [default from_option id].
  by rewrite lookup_insert_ne.
Qed.

Lemma still_owned_row rows key v :
  still_owned dl rows key v = true → is_Some (rows !! key).
Proof.
  intros Ho%still_owned_spec. unfold version_at in Ho.
  by destruct (rows !! key).
Qed.

(** C6 (as the code has it).  When a first [Unlock] of a handle has
    returned nil and the row of its key still carries the handle's
    version when [Unlock] is called again, the second [Unlock] passes its
    condition like the first: it sets the expiry to the time of the call
    and returns nil (the transport being reliable). *)
Theorem C6_second_Unlock_succeeds ctx1 ctx2 l w w2 :
  distinct_columns (config dl) →
  reliable 1 w →
  (Unlock dl ctx1 l w).1.1 = None →
  version_at (config dl) (table w2) (key (data l))
  = version_at (config dl) (table (Unlock dl ctx1 l w).2) (key (data l)) →
  reliable 1 w2 →
  let second := Unlock dl ctx2 (Unlock dl ctx1 l w).1.2 w2 in
  second.1.1 = None
  ∧ expires_at (table second.2) (key (data l))
    = Some (gotime.UnixNano (clock_after 1 w2)).
Proof.
  intros Hc Hr. rewrite (Unlock_eq _ _ _ _ (reliable_head _ _ Hr)). cbv zeta.
  destruct (still_owned dl (table w) _ _) eqn:Ho; [|done].
  cbn [fst snd table set_table]. intros Hfirst Hsame Hr2.
  rewrite version_at_with_expiry in Hsame
    by (eauto using version_ne_expires, still_owned_row).
  apply still_owned_spec in Ho. rewrite Ho in Hsame.
  apply still_owned_spec in Hsame.
  rewrite (Unlock_eq _ _ _ _ (reliable_head _ _ Hr2)). cbv zeta.
  rewrite heartbeat_done_data. cbn [data unlockCtxCancel].
  rewrite Hsame. cbn [fst snd table set_table].
  destruct (heartbeat_done_after_cancel l) as [e He].
  rewrite He in Hfirst. subst e.
  rewrite (heartbeat_done_returned (heartbeat_done (unlockCtxCancel l)) _ He).
  unfold unlockCtxCancel at 1. cbn [heartbeat]. rewrite He.
  split; [done|]. by rewrite expires_at_with_expiry.
Qed.

Lemma heartbeat_timer_error l w start e :
  heartbeat l = Running start →
  heartbeat (heartbeat_timer dl l w).1 = Returned e →
  is_Some e ∧ passthroughCtxCancelled (heartbeat_timer dl l w).1 = true.
Proof.
  intros Hh.
  destruct (head (faults w)) as [[msg|]|] eqn:Hf.
  - rewrite (heartbeat_timer_fault _ _ _ _ _ Hh Hf). cbn. intros [= <-]. eauto.
  - rewrite (heartbeat_timer_eq _ _ _ _ Hh) by (by rewrite Hf).
    cbv zeta. destruct (still_owned dl _ _ _); [done|].
    destruct (getExistingLock _ _ _ _). cbn. intros [= <-]. eauto.
  - rewrite (heartbeat_timer_eq _ _ _ _ Hh) by (by rewrite Hf).
    cbv zeta. destruct (still_owned dl _ _ _); [done|].
    destruct (getExistingLock _ _ _ _). cbn. intros [= <-]. eauto.
Qed.

Lemma Unlock_handle ctx' l w :
  (Unlock dl ctx' l w).1.2 = heartbeat_done (unlockCtxCancel l).
Proof.
  destruct (head (faults w)) as [[msg|]|] eqn:Hf.
  - by rewrite (Unlock_fault _ _ _ _ _ Hf).
  - rewrite Unlock_eq by (by rewrite Hf).
    cbv zeta. by destruct (still_owned dl _ _ _).
  - rewrite Unlock_eq by (by rewrite Hf).
    cbv zeta. by destruct (still_owned dl _ _ _).
Qed.

Lemma Unlock_passthrough ctx' l w :
  ctx_Err (ctx l) = None →
  passthroughCtx_Done (Unlock dl ctx' l w).1.2 = passthroughCtx_Done l.
Proof.
  intros Hctx. rewrite Unlock_handle.
  unfold heartbeat_done, unlockCtx_Done, unlockCtxCancel.
  cbn [heartbeat unlockCtxCancelled orb locked ctx].
  destruct (heartbeat l); [|done].
  rewrite Hctx. by destruct (locked l).
Qed.

(** C7 (as the code has it).  The passthrough context is cancelled
    whenever the heartbeat returns an error, so in particular when it
    finds the lease lost; a release leaves it as it is while the context
    given to [Lock] is not done; and a renewal that the transport fails
    makes the heartbeat return that error as it is, without reading the
    row back and without touching the table, and cancels the passthrough
    context like any other heartbeat error. *)
Theorem C7_passthrough_context l w :
  (∀ start e, heartbeat l = Running start →
     heartbeat (heartbeat_timer dl l w).1 = Returned e →
     is_Some e ∧ passthroughCtx_Done (heartbeat_timer dl l w).1 = true)
  ∧ (∀ ctx', ctx_Err (ctx l) = None →
       passthroughCtx_Done (Unlock dl ctx' l w).1.2 = passthroughCtx_Done l)
  ∧ (∀ start msg, heartbeat l = Running start →
       head (faults w) = Some (Some msg) →
       heartbeat (heartbeat_timer dl l w).1 = Returned (Some (Foreign msg))
       ∧ table (heartbeat_timer dl l w).2 = table w
       ∧ faults (heartbeat_timer dl l w).2 = tail (faults w)
       ∧ passthroughCtx_Done (heartbeat_timer dl l w).1 = true).
Proof.
  split; [|split].
  - intros start e Hh Hret.
    destruct (heartbeat_timer_error _ _ _ _ Hh Hret) as [? Hc].
    split; [done|]. unfold passthroughCtx_Done. by rewrite Hc.
  - intros ctx'. apply Unlock_passthrough.
  - intros start msg Hh Hf.
    by rewrite (heartbeat_timer_fault _ _ _ _ _ Hh Hf).
Qed.

End Release.

(** C6, counterexample.  A takes the lock and releases it; nobody touches
    the row; A releases it again: the second release returns nil, not the
    not-currently-locked error. *)
Lemma C6_second_Unlock_is_not_refused :
  let first := Unlock example.locker example.background example.A example.A_locks.2 in
  let second := Unlock example.locker example.background first.1.2 first.2 in
  is_Some (newLock example.A_locks.1)
  ∧ first.1.1 = None
  ∧ version_at (config example.locker) (table first.2) "job-7"
    = Some (AttributeValueMemberS (Version (data example.A)))
  ∧ second.1.1 = None
  ∧ second.1.1 ≠ Some (not_locked "job-7").
Proof. vm_compute. repeat split; eauto; discriminate. Qed.

(** C7, counterexample.  A holds the lock and the row carries A's
    version; one renewal fails in transport: the heartbeat returns that
    error and the passthrough context is cancelled, although the lease is
    not lost. *)
Lemma C7_transport_fault_cancels_passthrough :
  let w := set_faults [Some "RequestTimeout"] example.A_locks.2 in
  let r := heartbeat_timer (H := example.externals) example.locker example.A w in
  is_Some (newLock example.A_locks.1)
  ∧ passthroughCtx_Done example.A = false
  ∧ heartbeat r.1 = Returned (Some (Foreign "RequestTimeout"))
  ∧ version_at (config example.locker) (table r.2) "job-7"
    = Some (AttributeValueMemberS (Version (data example.A)))
  ∧ expires_at (table r.2) "job-7" = Some (example.t0 + lockDuration)
  ∧ clock r.2 < example.t0 + lockDuration
  ∧ passthroughCtx_Done r.1 = true.
Proof. vm_compute. repeat split; eauto. Qed.

(** ** Listing the locks *)

Section Listing.
Context `{Externals} (dl : distributedLocker).

Lemma concat_paginate sizes (items : list (gmap string AttributeValue)) :
  concat (paginate sizes items) = items.
Proof.
  revert items. induction sizes as [|n sizes IH]; intros items; cbn.
  - by rewrite app_nil_r.
  - by rewrite IH, take_drop.
Qed.

Lemma length_paginate sizes (items : list (gmap string AttributeValue)) :
  length (paginate sizes items) = S (length sizes).
Proof.
  revert items. induction sizes as [|n sizes IH]; intros items; cbn; [done|].
  by rewrite IH.
Qed.

Lemma nextPages_reliable pages :
  ∀ items w,
    reliable (length pages) w →
    nextPages pages items w
    = (Ok (items ++ concat pages),
       set_faults (drop (length pages) (faults w)) w).
Proof.
  induction pages as [|page pages IH]; intros items w Hr.
  - cbn [nextPages ret length concat]. rewrite app_nil_r, drop_0. by destruct w.
  - cbn [nextPages length concat].
    rewrite (bind_run _ _ _ _ _ (call_read_reliable _ _ (reliable_head _ _ Hr))).
    rewrite IH by (by apply reliable_tail).
    rewrite <- app_assoc. f_equal. unfold set_faults.
    cbn [clock delays faults table page_sizes lockCounterMap].
    f_equal. destruct (faults w); cbn [tail drop]; [by rewrite drop_nil|done].
Qed.

Lemma getLocks_eq ctx typ w :
  reliable (S (length (page_sizes w))) w →
  getLocks dl ctx typ w =
    collections.TransformSliceToMapWithErr (scanned typ w)
      (λ _ sliceValue,
         let* parsed := parseLockData dl sliceValue in
         match parsed with
         | Err e => ret (Err e)
         | Ok lock => ret (Ok (Key lock, lock))
         end)
      (after_scan typ w).
Proof.
  intros Hr. unfold getLocks, scanned, scan_filter, after_scan.
  destruct typ; unfold bind, ret; rewrite ?time_Now_eq.
  all: rewrite nextPages_reliable by (by rewrite length_paginate).
  all: by rewrite length_paginate, concat_paginate.
Qed.

Lemma decode_dichotomy item :
  decodes dl item ∨ ∃ e, undecodable dl item e.
Proof.
  unfold decodes, undecodable, parseLockData.
  repeat match goal with
         | |- context [match ?x with Some _ => _ | None => _ end] =>
             destruct x; [|right; eexists; intros w; reflexivity]
         end.
  left. intros w. rewrite (bind_run _ _ _ _ _ (time_Now_eq w)). eexists. reflexivity.
Qed.

Lemma decodes_not_undecodable item e : decodes dl item → ¬ undecodable dl item e.
Proof.
  intros Hd Hu. destruct (Hd (mkWorld 0 [] [] ∅ [] ∅)) as [ld Hld].
  rewrite Hu in Hld. done.
Qed.

(** The loop of [TransformSliceToMapWithErr] over the fetched rows stops
    at the first row that does not decode and gives up the map. *)
Lemma transform_stops_at_corrupt_row before bad after e :
  Forall (decodes dl) before →
  undecodable dl bad e →
  ∀ idx out w,
    (collections.TransformSliceToMapWithErr_from
       (λ (_ : nat) sliceValue,
          let* parsed := parseLockData dl sliceValue in
          match parsed with
          | Err e => ret (Err e)
          | Ok lock => ret (Ok (Key lock, lock))
          end)
       idx (before ++ bad :: after) out w).1 = Err e.
Proof.
  intros Hbefore Hbad.
  induction Hbefore as [|item before Hitem _ IH]; intros idx out w.
  - cbn [app collections.TransformSliceToMapWithErr_from].
    unfold bind. by rewrite Hbad.
  - cbn [app collections.TransformSliceToMapWithErr_from].
    unfold bind at 1. unfold bind at 1.
    destruct (Hitem w) as [ld ->]. cbn [ret]. apply IH.
Qed.

Lemma transform_decodes_all items :
  Forall (decodes dl) items →
  ∀ idx out w,
    ∃ m, (collections.TransformSliceToMapWithErr_from
            (λ (_ : nat) sliceValue,
               let* parsed := parseLockData dl sliceValue in
               match parsed with
               | Err e => ret (Err e)
               | Ok lock => ret (Ok (Key lock, lock))
               end)
            idx items out w).1 = Ok m.
Proof.
  induction 1 as [|item items Hitem _ IH]; intros idx out w.
  - cbn. eauto.
  - cbn [collections.TransformSliceToMapWithErr_from].
    unfold bind at 1. unfold bind at 1.
    destruct (Hitem w) as [ld ->]. cbn [ret]. apply IH.
Qed.

Lemma first_corrupt_row items :
  Forall (decodes dl) items
  ∨ ∃ before bad after e,
      items = before ++ bad :: after
      ∧ Forall (decodes dl) before ∧ undecodable dl bad e.
Proof.
  induction items as [|item items IH]; [by left|].
  destruct (decode_dichotomy item) as [Hd|[e He]].
  - destruct IH as [Hall|(before & bad & after & e & -> & Hb & Hu)].
    + left. by constructor.
    + right. exists (item :: before), bad, after, e. repeat split; [|done].
      by constructor.
  - right. exists [], item, items, e. repeat split; [|done]. constructor.
Qed.

(** C5 (as the code has it).  In a listing whose scan the transport
    delivers, a fetched row that does not decode makes the whole call
    fail: it returns the decode error of the first such row in scan
    order and no map.  A map is returned exactly when every fetched row
    decodes. *)
Theorem C5_corrupt_row_fails_listing ctx typ w :
  reliable (S (length (page_sizes w))) w →
  (∀ before bad after e,
     scanned typ w = before ++ bad :: after →
     Forall (decodes dl) before →
     undecodable dl bad e →
     (getLocks dl ctx typ w).1 = Err e)
  ∧ ((∃ m, (getLocks dl ctx typ w).1 = Ok m)
     ↔ Forall (decodes dl) (scanned typ w)).
Proof.
  intros Hr. rewrite (getLocks_eq ctx typ w Hr).
  unfold collections.TransformSliceToMapWithErr.
  split.
  - intros before bad after e -> Hb Hu.
    by apply transform_stops_at_corrupt_row.
  - split.
    + intros [m Hm].
      destruct (first_corrupt_row (scanned typ w))
        as [Hall|(before & bad & after & e & Hs & Hb & Hu)]; [done|].
      rewrite Hs in Hm.
      by rewrite (transform_stops_at_corrupt_row _ _ _ _ Hb Hu) in Hm.
    + intros Hall. by apply transform_decodes_all.
Qed.

End Listing.

(** ** The fencing token *)







Section Token.
Context `{Externals}.










End Token.


(** ** The properties in the example setting *)

Lemma example_columns : distinct_columns (config example.locker).
Proof. compute_done. Qed.

(** C5, counterexample.  The table holds A's row, which decodes and is
    active, and one corrupt row: listing all locks and listing the active
    locks both fail with the decode error of the corrupt row, and A's row
    is not returned. *)
Lemma C5_one_corrupt_row_fails_the_listing :
  let w := example.with_corrupt_row in
  let A_row := default ∅ (table w !! "job-7") in
  (∃ ld, (parseLockData (H := example.externals) example.locker A_row w).1 = Ok ld
         ∧ Key ld = "job-7" ∧ Active ld = true)
  ∧ (GetAllLocks (H := example.externals) example.locker example.background w).1
    = Err (Errorf "No acquired field in existing lock row")
  ∧ (GetActiveLocks (H := example.externals) example.locker example.background w).1
    = Err (Errorf "No acquired field in existing lock row").
Proof. vm_compute. split; [eexists; split; [reflexivity|done]|done]. Qed.

Lemma C5_corrupt_row_fails_listing_witness :
  (getLocks (H := example.externals) example.locker example.background all
     example.with_corrupt_row).1
  = Err (Errorf "No acquired field in existing lock row").
Proof.
  destruct (C5_corrupt_row_fails_listing (H := example.externals) example.locker
              example.background all example.with_corrupt_row) as [Hfail _].
  - by apply example_reliable.
  - apply (Hfail [candidate (H := example.externals) example.locker
                    example.background "job-7" None example.start]
                 example.corrupt_row []).
    + reflexivity.
    + constructor; [|constructor]. intros w.
      destruct (parseLockData_well_formed (H := example.externals) example.locker
                  "job-7" "local/4f6c-0" 1700000000000000000 1700000020000000000
                  (candidate (H := example.externals) example.locker
                     example.background "job-7" None example.start) w)
        as (ld & Hld & _); [reflexivity..|].
      by exists ld.
    + intros w. reflexivity.
Defined.

(** B has taken over the lock A held; A's handle then renews and
    releases. *)
Lemma C2_stale_handle_is_fenced_witness :
  let w := example.B_locks.2 in
  let renewal := heartbeat_timer (H := example.externals) example.locker example.A w in
  let release := Unlock example.locker example.background example.A w in
  (table renewal.2 = table w
   ∧ passthroughCtxCancelled renewal.1 = true
   ∧ ∃ existing, Version existing = "8d2b-1"
       ∧ heartbeat renewal.1 = Returned (Some (lease_lost existing)))
  ∧ release.1.1 = Some (not_locked (key (data example.A)))
  ∧ table release.2 = table w.
Proof.
  cbv zeta.
  destruct (C2_stale_handle_is_fenced (H := example.externals) example.locker
              example.A example.B_locks.2) as (_ & _ & Hstale).
  destruct (Hstale
              (candidate (H := example.externals) example.locker example.invocation
                 "job-7" None (elapse (example.seconds 25) example.A_locks.2))
              "8d2b-1" 1700000025000000000 1700000045000000000)
    as [Hrenew Hrelease].
  - reflexivity.
  - repeat split; reflexivity.
  - vm_compute. discriminate.
  - destruct (Hrenew 1700000000000000000) as (Htable & Hcancel & _ & Hlost);
      [reflexivity|].
    destruct (Hrelease example.background) as (Htable' & _ & Hrefused).
    split; [split; [exact Htable|split; [exact Hcancel|]]|split; [|exact Htable']].
    + apply Hlost. by apply example_reliable.
    + apply Hrefused. by apply example_reliable.
Defined.

Lemma C6_second_Unlock_succeeds_witness :
  let first := Unlock example.locker example.background example.A example.A_locks.2 in
  let second := Unlock example.locker example.background first.1.2 first.2 in
  second.1.1 = None
  ∧ expires_at (table second.2) "job-7" = Some (gotime.UnixNano (clock_after 1 first.2)).
Proof.
  apply (C6_second_Unlock_succeeds example.locker example.background
           example.background example.A example.A_locks.2).
  - exact example_columns.
  - by apply example_reliable.
  - reflexivity.
  - reflexivity.
  - by apply example_reliable.
Defined.

Lemma C7_passthrough_context_witness :
  let w := set_faults [Some "RequestTimeout"] example.A_locks.2 in
  let r := heartbeat_timer (H := example.externals) example.locker example.A w in
  passthroughCtx_Done
    (Unlock example.locker example.background example.A w).1.2
  = passthroughCtx_Done example.A
  ∧ heartbeat r.1 = Returned (Some (Foreign "RequestTimeout"))
  ∧ table r.2 = table w
  ∧ faults r.2 = tail (faults w)
  ∧ passthroughCtx_Done r.1 = true.
Proof.
  destruct (C7_passthrough_context (H := example.externals) example.locker example.A
              (set_faults [Some "RequestTimeout"] example.A_locks.2))
    as (_ & Hrelease & Hfault).
  split.
  - apply Hrelease. reflexivity.
  - apply (Hfault 1700000000000000000 "RequestTimeout"); reflexivity.
Defined.

(** A takes the lock and its heartbeat renews it twice. *)
Lemma C8_expiry_never_decreases_witness :
  ∃ es,
    expires_at (table example.A_locks.2) "job-7"
    = Some (clock_after 1 example.start + lockDuration)
    ∧ (heartbeats (H := example.externals) example.locker 2 example.A
         example.A_locks.2).1 = Some <$> es
    ∧ length es = 2%nat
    ∧ Sorted Z.le ((clock_after 1 example.start + lockDuration) :: es).
Proof.
  apply (C8_expiry_never_decreases (H := example.externals) example.locker
           example.background "job-7" None example.start 2 example.A
           1700000020000000000).
  - exact example_columns.
  - exact example_prepared.
  - by apply example_reliable.
  - reflexivity.
  - reflexivity.
  - vm_compute; discriminate.
  - vm_compute; discriminate.
Defined.


Lemma C10_held_lock_has_no_expiry_witness :
  (∀ l', later (H := example.externals) example.locker example.A l' →
         Expires (data l') = gotime.zero ∧ Active (data l') = true)
  ∧ (∀ item w' ld,
       (parseLockData (H := example.externals) example.locker item w').1 = Ok ld →
       ∃ e, item !! expiresColumn = Some (AttributeValueMemberN e)
            ∧ Expires ld = dateutils.TimeFromUnix e
            ∧ Expires ld ≠ gotime.zero).
Proof.
  apply (C10_held_lock_has_no_expiry (H := example.externals) example.locker
           example.background "job-7" None example.start).
  reflexivity.
Defined.

(** * Further properties

    Properties of the same code that the sections above do not state,
    and of the helpers next to the ones the lock calls. *)

(** ** [numbers.Abs] and [dateutils.TimeFromUnix] *)

(** X1.  At [int64], [Abs] returns the magnitude of every value but the
    least one, which it returns as it is: negative. *)
Theorem Abs_int64 v :
  is_int64 v = true →
  numbers.Abs v = if bool_decide (v = MinInt64) then MinInt64 else Z.abs v.
Proof.
  intros Hv. apply is_int64_spec in Hv. unfold numbers.Abs.
  case_bool_decide as Hmin.
  - subst v. reflexivity.
  - destruct (v <? 0) eqn:Hneg.
    + apply Z.ltb_lt in Hneg. rewrite wrap64_id; unfold MinInt64, MaxInt64 in *; lia.
    + apply Z.ltb_ge in Hneg. lia.
Qed.

Lemma Abs_int64_witness :
  numbers.Abs (-5) = if bool_decide (-5 = MinInt64) then MinInt64 else Z.abs (-5).
Proof. apply Abs_int64. reflexivity. Defined.

Lemma Abs_magnitude u :
  is_int64 u = true → u ≠ MinInt64 → numbers.Abs u = Z.abs u.
Proof.
  intros Hu%is_int64_spec Hmin. unfold numbers.Abs.
  destruct (u <? 0) eqn:Hneg.
  - apply Z.ltb_lt in Hneg. rewrite wrap64_id; unfold MinInt64, MaxInt64 in *; lia.
  - apply Z.ltb_ge in Hneg. lia.
Qed.

Lemma TimeFromUnix_far u :
  10000000 * MaxInt32 < Z.abs u → u ≠ MinInt64 → is_int64 u = true →
  dateutils.TimeFromUnix u = u.
Proof.
  intros Hfar Hmin Hu. unfold dateutils.TimeFromUnix. cbv zeta.
  rewrite (Abs_magnitude u Hu Hmin).
  unfold MaxInt32 in *.
  rewrite !(proj2 (Z.leb_gt _ _)) by lia.
  unfold gotime.Unix, gotime.Second.
  pose proof (Z.quot_rem' u 1000000000). lia.
Qed.




(** ** Decoding a row *)

Section Decoding.
Context `{Externals} (dl : distributedLocker).

Lemma parseLockData_logsUrl item w ld :
  (parseLockData dl item w).1 = Ok ld →
  LogsUrl ld
  = match item !! logsUrlColumn with
    | Some logsUrlValue => default "" (attributevalue.Unmarshal_string logsUrlValue)
    | None => ""
    end.
Proof.
  unfold parseLockData.
  repeat (case_match; try (cbn; discriminate)).
  all: rewrite (bind_run _ _ _ _ _ (time_Now_eq w)); cbn [ret fst].
  all: intros [= <-]; cbn; congruence.
Qed.



End Decoding.


(** ** What the operations write *)

Section Writes.
Context `{Externals} (dl : distributedLocker).

Lemma heartbeat_timer_writes l w :
  table (heartbeat_timer dl l w).2 = table w
  ∨ still_owned dl (table w) (key (data l)) (version (data l)) = true
    ∧ ∃ t, table (heartbeat_timer dl l w).2
           = with_expiry dl (table w) (key (data l)) (gotime.UnixNano t).
Proof.
  destruct (heartbeat l) as [start|e] eqn:Hh.
  - destruct (head (faults w)) as [[msg|]|] eqn:Hf.
    + left. by rewrite (heartbeat_timer_fault _ _ _ _ _ Hh Hf).
    + rewrite (heartbeat_timer_eq _ _ _ _ Hh) by (by rewrite Hf).
      cbv zeta. destruct (still_owned dl _ _ _); [right; split; [done|by eexists]|left].
      rewrite (surjective_pairing (getExistingLock _ _ _ _)). cbn [snd].
      by rewrite getExistingLock_table.
    + rewrite (heartbeat_timer_eq _ _ _ _ Hh) by (by rewrite Hf).
      cbv zeta. destruct (still_owned dl _ _ _); [right; split; [done|by eexists]|left].
      rewrite (surjective_pairing (getExistingLock _ _ _ _)). cbn [snd].
      by rewrite getExistingLock_table.
  - left. by rewrite (heartbeat_timer_returned _ _ _ _ Hh).
Qed.

Lemma Unlock_writes ctx' l w :
  table (Unlock dl ctx' l w).2 = table w
  ∨ still_owned dl (table w) (key (data l)) (version (data l)) = true
    ∧ ∃ t, table (Unlock dl ctx' l w).2
           = with_expiry dl (table w) (key (data l)) (gotime.UnixNano t).
Proof.
  destruct (head (faults w)) as [[msg|]|] eqn:Hf.
  - left. by rewrite (Unlock_fault _ _ _ _ _ Hf).
  - rewrite Unlock_eq by (by rewrite Hf).
    cbv zeta. destruct (still_owned dl _ _ _); [right; split; [done|by eexists]|by left].
  - rewrite Unlock_eq by (by rewrite Hf).
    cbv zeta. destruct (still_owned dl _ _ _); [right; split; [done|by eexists]|by left].
Qed.

(** A renewal or a release that goes through rewrites one attribute of
    a row that is there. *)
Lemma with_expiry_cell rows key version e k :
  still_owned dl rows key version = true →
  (is_Some (with_expiry dl rows key e !! k) ↔ is_Some (rows !! k))
  ∧ (∀ c, k ≠ key ∨ c ≠ expiresColumn →
          cell (with_expiry dl rows key e) k c = cell rows k c).
Proof.
  intros [item Hitem]%still_owned_row. unfold with_expiry, cell.
  rewrite Hitem. cbn [default from_option id].
  destruct (decide (k = key)) as [->|Hk].
  - rewrite lookup_insert_eq, Hitem. split; [done|].
    intros c [?|Hc]; [done|]. cbn. by rewrite lookup_insert_ne.
  - by rewrite lookup_insert_ne.
Qed.

Lemma written_cell rows rows' key version k :
  rows' = rows
  ∨ still_owned dl rows key version = true
    ∧ (∃ t, rows' = with_expiry dl rows key (gotime.UnixNano t)) →
  (is_Some (rows' !! k) ↔ is_Some (rows !! k))
  ∧ (∀ c, k ≠ key ∨ c ≠ expiresColumn → cell rows' k c = cell rows k c).
Proof.
  intros [->|[Ho [t ->]]]; [done|]. by eapply with_expiry_cell.
Qed.

(** X5.  A turn of the heartbeat and a release neither add nor remove a
    row, and the one attribute they may change in the table is the
    expiry of the row of their own key: version, acquisition time, log
    URL and metadata stay as [Lock] wrote them, and the rows of other
    keys stay as they are. *)
Theorem renewal_and_release_footprint l ctx' w :
  let renewed := table (heartbeat_timer dl l w).2 in
  let released := table (Unlock dl ctx' l w).2 in
  (∀ k, (is_Some (renewed !! k) ↔ is_Some (table w !! k))
        ∧ (is_Some (released !! k) ↔ is_Some (table w !! k)))
  ∧ (∀ k c, k ≠ key (data l) ∨ c ≠ expiresColumn →
            cell renewed k c = cell (table w) k c
            ∧ cell released k c = cell (table w) k c).
Proof.
  cbv zeta.
  pose proof (λ k, written_cell _ _ _ _ k (heartbeat_timer_writes l w)) as Hr.
  pose proof (λ k, written_cell _ _ _ _ k (Unlock_writes ctx' l w)) as Hu.
  split.
  - intros k. split; [apply Hr | apply Hu].
  - intros k c Hkc. split; [by apply Hr | by apply Hu].
Qed.

(** X6.  Whichever way [Unlock] ends, also when its update fails in
    transport or on its condition, the handle it leaves has its unlock
    context cancelled and its heartbeat returned: no turn of the
    heartbeat renews the row after an [Unlock]. *)
Theorem Unlock_stops_the_heartbeat ctx' l w :
  let l' := (Unlock dl ctx' l w).1.2 in
  unlockCtx_Done l' = true
  ∧ (∃ e, heartbeat l' = Returned e)
  ∧ ∀ w', heartbeat_timer dl l' w' = (l', w').
Proof.
  cbv zeta. rewrite Unlock_handle.
  destruct (heartbeat_done_after_cancel l) as [e He].
  split; [|split; [by exists e|]].
  - unfold heartbeat_done.
    destruct (heartbeat (unlockCtxCancel l)); [|done].
    change (unlockCtx_Done (unlockCtxCancel l)) with true. cbn.
    by destruct (locked _).
  - intros w'. by apply (heartbeat_timer_returned _ _ _ e).
Qed.

End Writes.

(** ** The ways [Lock] fails, and the rows it leaves *)

Section LockPaths.
Context `{Externals} (dl : distributedLocker).

Lemma Lock_without_url ctx key metadata w lc e :
  ctx_lambda ctx = Some lc →
  RequestIdLogStreamUrlFromContext lc = Err e →
  Lock dl ctx key metadata w
  = (mkReturn ctx_nil None None (Some e), after_read (after_read w)).
Proof.
  intros Hl He. unfold Lock.
  rewrite (bind_run _ _ _ _ _ (time_Now_eq w)).
  rewrite (bind_run _ _ _ _ _ (time_Now_eq (after_read w))).
  rewrite Hl, He. reflexivity.
Qed.

Lemma Lock_without_meta ctx key metadata w e :
  (∀ lc, ctx_lambda ctx = Some lc →
         ∃ url, RequestIdLogStreamUrlFromContext lc = Ok url) →
  json_Marshal_map (default ∅ metadata) = Err e →
  Lock dl ctx key metadata w
  = (mkReturn ctx_nil None None (Some e),
     (nextLockCount key (after_read (after_read w))).2).
Proof.
  intros Hurl He. unfold Lock.
  rewrite (bind_run _ _ _ _ _ (time_Now_eq w)).
  rewrite (bind_run _ _ _ _ _ (time_Now_eq (after_read w))).
  destruct (ctx_lambda ctx) as [lc|] eqn:Hl;
    [destruct (Hurl lc eq_refl) as [url ->]|].
  all: rewrite (bind_run _ _ _ _ _ (nextLockCount_eq key _)).
  all: rewrite He, nextLockCount_eq; reflexivity.
Qed.

Lemma Lock_fault ctx key metadata w msg :
  prepared ctx metadata →
  head (faults w) = Some (Some msg) →
  Lock dl ctx key metadata w
  = (mkReturn ctx_caller None None (Some (Foreign msg)),
     after_insert key (table w) w).
Proof.
  intros [Hurl [meta Hmeta]] Hf. unfold Lock.
  rewrite (bind_run _ _ _ _ _ (time_Now_eq w)).
  rewrite (bind_run _ _ _ _ _ (time_Now_eq (after_read w))).
  rewrite Hmeta.
  destruct (ctx_lambda ctx) as [lc|] eqn:Hl;
    [destruct (Hurl lc eq_refl) as [url ->]|].
  all: rewrite (bind_run _ _ _ _ _ (nextLockCount_eq key _)).
  all: rewrite (bind_run _ _ _ _ _ (time_Now_eq _)).
  all: unfold bind at 1; rewrite (call_write_fault _ _ msg) by exact Hf.
  all: cbn [As_ConditionalCheckFailedException Wrap ret].
  all: rewrite third_read; reflexivity.
Qed.

Lemma after_one_attempt key w :
  lockCounterMap (after_attempts key 1 w)
  = <[key := wrap32 (default 0 (lockCounterMap w !! key) + 1)]> (lockCounterMap w).
Proof.
  change (after_attempts key 1 w) with (nextLockCount key w).2.
  by rewrite nextLockCount_eq.
Qed.

(** X7.  An attempt that fails before its insert reaches the table
    leaves every row as it was.  Unless it failed at the log stream URL
    it has still taken a sequence number: the token of the next attempt
    for the key skips one. *)
Theorem Lock_failed_attempt ctx key metadata w :
  let r := Lock dl ctx key metadata w in
  (∀ lc e,
     ctx_lambda ctx = Some lc →
     RequestIdLogStreamUrlFromContext lc = Err e →
     r.1 = mkReturn ctx_nil None None (Some e)
     ∧ table r.2 = table w
     ∧ lockCounterMap r.2 = lockCounterMap w)
  ∧ (∀ e,
       (∀ lc, ctx_lambda ctx = Some lc →
              ∃ url, RequestIdLogStreamUrlFromContext lc = Ok url) →
       json_Marshal_map (default ∅ metadata) = Err e →
       r.1 = mkReturn ctx_nil None None (Some e)
       ∧ table r.2 = table w
       ∧ lockCounterMap r.2 = lockCounterMap (after_attempts key 1 w))
  ∧ (∀ msg,
       prepared ctx metadata →
       head (faults w) = Some (Some msg) →
       r.1 = mkReturn ctx_caller None None (Some (Foreign msg))
       ∧ table r.2 = table w
       ∧ faults r.2 = tail (faults w)
       ∧ lockCounterMap r.2 = lockCounterMap (after_attempts key 1 w)).
Proof.
  cbv zeta. split; [|split].
  - intros lc e Hl He. by rewrite (Lock_without_url _ _ _ _ _ _ Hl He).
  - intros e Hurl He. rewrite (Lock_without_meta _ _ _ _ _ Hurl He).
    rewrite after_one_attempt, nextLockCount_eq. done.
  - intros msg Hp Hf. rewrite (Lock_fault _ _ _ _ _ Hp Hf).
    rewrite after_one_attempt. done.
Qed.

Context (Hc : distinct_columns (config dl)).

(** The one change [Lock] can make to the table. *)
Lemma Lock_writes ctx key metadata w :
  table (Lock dl ctx key metadata w).2 = table w
  ∨ table (Lock dl ctx key metadata w).2
    = <[key := candidate dl ctx key metadata w]> (table w).
Proof.
  assert (prepared ctx metadata
          ∨ table (Lock dl ctx key metadata w).2 = table w) as Hcases.
  { unfold prepared.
    destruct (json_Marshal_map (default ∅ metadata)) as [meta|e] eqn:Hmeta.
    - destruct (ctx_lambda ctx) as [lc|] eqn:Hl.
      + destruct (RequestIdLogStreamUrlFromContext lc) as [url|e] eqn:Hu.
        * left. split; [|by eexists]. intros ? ?; simplify_eq; eauto.
        * right. by rewrite (Lock_without_url _ _ _ _ _ _ Hl Hu).
      + left. split; [done|by eexists].
    - destruct (ctx_lambda ctx) as [lc|] eqn:Hl.
      + destruct (RequestIdLogStreamUrlFromContext lc) as [url|e'] eqn:Hu.
        * right. rewrite (Lock_without_meta _ _ _ _ e); [by rewrite nextLockCount_eq| |done].
          intros ? ?; simplify_eq; eauto.
        * right. by rewrite (Lock_without_url _ _ _ _ _ _ Hl Hu).
      + right. rewrite (Lock_without_meta _ _ _ _ e); [by rewrite nextLockCount_eq| |done].
        intros ? ?; simplify_eq. }
  destruct Hcases as [Hp|?]; [|by left].
  destruct (head (faults w)) as [[msg|]|] eqn:Hf.
  - left. by rewrite (Lock_fault _ _ _ _ _ Hp Hf).
  - rewrite (Lock_eq dl Hc _ _ _ _ Hp) by (by rewrite Hf).
    destruct (insert_allowed dl _ _ _); [by right|left].
    destruct (getExistingLock _ _ _ _) as [[existing|e'] w'] eqn:Hg.
    all: pose proof (getExistingLock_table dl ctx key (after_insert key (table w) w)) as Ht.
    all: rewrite Hg in Ht; exact Ht.
  - rewrite (Lock_eq dl Hc _ _ _ _ Hp) by (by rewrite Hf).
    destruct (insert_allowed dl _ _ _); [by right|left].
    destruct (getExistingLock _ _ _ _) as [[existing|e'] w'] eqn:Hg.
    all: pose proof (getExistingLock_table dl ctx key (after_insert key (table w) w)) as Ht.
    all: rewrite Hg in Ht; exact Ht.
Qed.

(** X8.  When the six column names differ, [Lock] changes no row but
    the one of its key, and it never removes that one. *)
Theorem Lock_leaves_other_rows ctx key metadata w :
  (∀ k, k ≠ key → table (Lock dl ctx key metadata w).2 !! k = table w !! k)
  ∧ (is_Some (table w !! key) →
     is_Some (table (Lock dl ctx key metadata w).2 !! key)).
Proof.
  destruct (Lock_writes ctx key metadata w) as [->| ->]; [done|].
  split.
  - intros k Hk. by rewrite lookup_insert_ne.
  - intros _. rewrite lookup_insert_eq. by eexists.
Qed.

Lemma candidate_row_has ctx key metadata w :
  row_has (config dl) (candidate dl ctx key metadata w) key
    (next_version ctx key w) (gotime.UnixNano (clock_after 2 w))
    (gotime.UnixNano (gotime.Add (clock_after 1 w) lockDuration)).
Proof.
  repeat split.
  - by apply candidate_key.
  - by apply candidate_version.
  - by apply candidate_acquired.
  - by apply candidate_expires.
  - apply wrap64_is_int64.
  - apply wrap64_is_int64.
Qed.

Lemma with_expiry_well_formed rows key version t :
  still_owned dl rows key version = true →
  well_formed (config dl) rows →
  well_formed (config dl) (with_expiry dl rows key (gotime.UnixNano t)).
Proof.
  intros [item Hitem]%still_owned_row Hwf. unfold with_expiry.
  rewrite Hitem. cbn [default from_option id].
  apply map_Forall_insert_2; [|done].
  destruct (Hwf _ _ Hitem) as (v & a & e & Hk & Hv & Ha & He & Hia & Hie).
  exists v, a, (gotime.UnixNano t). repeat split.
  - rewrite lookup_insert_ne; [done|]. apply not_eq_sym, (key_ne_expires _ Hc).
  - rewrite lookup_insert_ne; [done|]. apply not_eq_sym, (version_ne_expires _ Hc).
  - rewrite lookup_insert_ne; [done|]. apply not_eq_sym, acquired_ne_expires.
  - by rewrite lookup_insert_eq.
  - done.
  - apply wrap64_is_int64.
Qed.

(** X9.  When the six column names differ, a table in which every row
    is one the lock could have written stays so under [Lock], under a
    turn of the heartbeat and under [Unlock], whichever way they end. *)
Theorem well_formed_preserved ctx key metadata l ctx' w :
  well_formed (config dl) (table w) →
  well_formed (config dl) (table (Lock dl ctx key metadata w).2)
  ∧ well_formed (config dl) (table (heartbeat_timer dl l w).2)
  ∧ well_formed (config dl) (table (Unlock dl ctx' l w).2).
Proof.
  intros Hwf. split; [|split].
  - destruct (Lock_writes ctx key metadata w) as [->| ->]; [done|].
    apply map_Forall_insert_2; [|done].
    do 3 eexists. apply candidate_row_has.
  - destruct (heartbeat_timer_writes dl l w) as [->|[Ho [t ->]]]; [done|].
    by eapply with_expiry_well_formed.
  - destruct (Unlock_writes dl ctx' l w) as [->|[Ho [t ->]]]; [done|].
    by eapply with_expiry_well_formed.
Qed.

End LockPaths.

(** ** How the operations follow one another *)

Section Sequences.
Context `{Externals} (dl : distributedLocker).
Context (Hc : distinct_columns (config dl)).

Lemma candidate_logsUrl ctx key metadata w :
  match candidate dl ctx key metadata w !! logsUrlColumn with
  | Some logsUrlValue => default "" (attributevalue.Unmarshal_string logsUrlValue)
  | None => ""
  end = logsUrlOf ctx.
Proof.
  unfold candidate, logsUrlOf. destruct (ctx_lambda ctx); by lookup_row.
Qed.

(** A handle comes with the row it stands for. *)
Lemma Lock_granted ctx key metadata w l :
  prepared ctx metadata →
  reliable 1 w →
  newLock (Lock dl ctx key metadata w).1 = Some l →
  l = granted ctx key metadata w
  ∧ table (Lock dl ctx key metadata w).2
    = <[key := candidate dl ctx key metadata w]> (table w).
Proof.
  intros Hp Hr. rewrite (Lock_eq dl Hc _ _ _ _ Hp (reliable_head _ _ Hr)).
  destruct (insert_allowed dl _ _ _).
  - cbn. by intros [= <-].
  - by destruct (getExistingLock _ _ _ _) as [[existing|e'] w'].
Qed.

(** What [Lock] answers when the row of the key has not run out. *)
Lemma Lock_contended ctx key metadata w item v a e :
  prepared ctx metadata →
  reliable 2 w →
  table w !! key = Some item →
  row_has (config dl) item key v a e →
  gotime.UnixNano (clock_after 3 w) < e →
  ∃ ld w',
    Lock dl ctx key metadata w = (mkReturn ctx_caller None (Some ld) None, w')
    ∧ table w' = table w
    ∧ Key ld = key ∧ Version ld = v
    ∧ Acquired ld = dateutils.TimeFromUnix a
    ∧ Expires ld = dateutils.TimeFromUnix e
    ∧ Active ld = gotime.After (dateutils.TimeFromUnix e) (clock_after 4 w)
    ∧ LogsUrl ld
      = match item !! logsUrlColumn with
        | Some logsUrlValue =>
            default "" (attributevalue.Unmarshal_string logsUrlValue)
        | None => ""
        end.
Proof.
  intros Hp Hr Hrow (Hk & Hv & Ha & He & Hia & Hie) Hlt.
  rewrite (Lock_eq dl Hc _ _ _ _ Hp (reliable_head _ _ Hr)).
  assert (insert_allowed dl (table w) key (gotime.UnixNano (clock_after 3 w)) = false) as ->.
  { unfold insert_allowed. rewrite Hrow. cbn [default from_option id eval operand].
    rewrite Hk, He. cbn. apply Z.leb_gt. done. }
  apply reliable_tail, reliable_head in Hr.
  rewrite getExistingLock_reliable by exact Hr.
  cbn [table after_insert]. rewrite Hrow. cbn [default from_option id].
  match goal with
  | |- context [parseLockData dl item ?w'] =>
      destruct (parseLockData_well_formed dl key v a e item w' Hk Hv Ha Hia He Hie)
        as (ld & Hparse & Hld);
      pose proof (parseLockData_logsUrl dl item w' ld) as Hurl;
      rewrite Hparse in Hurl |- *
  end.
  eexists ld, _. split; [reflexivity|].
  destruct Hld as (? & ? & ? & ? & ->). repeat split; try done.
  - f_equal. unfold after_insert, set_faults.
    cbn [clock delays faults table page_sizes lockCounterMap].
    by rewrite clock_after_later.
  - by apply Hurl.
Qed.

(** X10.  The row a successful [Lock] has written reads back, at any
    later time at which it is still as written, as the lock of the
    handle: same key, version, acquisition time and log URL, with the
    expiry of 20 seconds after [Lock]'s first clock reading, which the
    handle itself does not carry. *)
Theorem Lock_row_reads_back ctx key metadata w l ctx2 w2 :
  prepared ctx metadata →
  reliable 1 w →
  newLock (Lock dl ctx key metadata w).1 = Some l →
  table w2 !! key = table (Lock dl ctx key metadata w).2 !! key →
  reliable 1 w2 →
  ∃ ld, (getExistingLock dl ctx2 key w2).1 = Ok ld
        ∧ Key ld = Key (data l)
        ∧ Version ld = Version (data l)
        ∧ Acquired ld = Acquired (data l)
        ∧ LogsUrl ld = LogsUrl (data l)
        ∧ Expires ld
          = dateutils.TimeFromUnix
              (gotime.UnixNano (gotime.Add (clock_after 1 w) lockDuration))
        ∧ Active ld = gotime.After (Expires ld) (clock_after 1 w2).
Proof.
  intros Hp Hr Hl Hrow Hr2.
  destruct (Lock_granted _ _ _ _ _ Hp Hr Hl) as [-> Ht].
  rewrite Ht, lookup_insert_eq in Hrow.
  rewrite getExistingLock_reliable by (by apply (reliable_head 0)).
  rewrite Hrow. cbn [default from_option id].
  pose proof (candidate_row_has dl Hc ctx key metadata w)
    as (Hk & Hv & Ha & He & Hia & Hie).
  match goal with
  | |- context [parseLockData dl ?item ?w'] =>
      destruct (parseLockData_well_formed dl _ _ _ _ item w' Hk Hv Ha Hia He Hie)
        as (ld & Hparse & Hld);
      pose proof (parseLockData_logsUrl dl item w' ld) as Hurl;
      rewrite Hparse in Hurl |- *
  end.
  exists ld. split; [done|].
  destruct Hld as (-> & -> & -> & HE & ->). rewrite HE.
  repeat split.
  rewrite Hurl by done. apply candidate_logsUrl.
Qed.

(** X11.  Two acquisitions in a row: while the 20 seconds of the first
    have not run out and its row is as written, a second [Lock] for the
    key, by anyone, gets no handle and no error and changes nothing; it
    is told version, acquisition time and log URL of the first, as an
    active lock.  (Clock readings are taken to be [int64] nanosecond
    counts that [TimeFromUnix] reads as nanoseconds.) *)
Theorem second_Lock_is_refused ctx1 md1 ctx2 md2 key w w2 l :
  prepared ctx1 md1 →
  prepared ctx2 md2 →
  reliable 1 w →
  reliable 2 w2 →
  newLock (Lock dl ctx1 key md1 w).1 = Some l →
  table w2 !! key = table (Lock dl ctx1 key md1 w).2 !! key →
  10000000 * MaxInt32 < clock w →
  MinInt64 ≤ clock w2 →
  clock_after 4 w2 < clock_after 1 w + lockDuration ≤ MaxInt64 →
  let r := Lock dl ctx2 key md2 w2 in
  newCtx r.1 = ctx_caller ∧ newLock r.1 = None ∧ err r.1 = None
  ∧ table r.2 = table w2
  ∧ ∃ ld, existingLock r.1 = Some ld
          ∧ Version ld = Version (data l)
          ∧ Acquired ld = Acquired (data l)
          ∧ LogsUrl ld = LogsUrl (data l)
          ∧ Active ld = true.
Proof.
  intros Hp1 Hp2 Hr Hr2 Hl Hrow Hfar Hmin [Hlt Hmax] r. subst r.
  destruct (Lock_granted _ _ _ _ _ Hp1 Hr Hl) as [-> Ht].
  rewrite Ht, lookup_insert_eq in Hrow.
  pose proof (clock_after_mono 1 w) as Hm1.
  pose proof (clock_after_mono 3 w2) as Hm3.
  pose proof (clock_after_S 3 w2) as Hm4.
  assert (He : gotime.UnixNano (gotime.Add (clock_after 1 w) lockDuration)
               = clock_after 1 w + lockDuration).
  { unfold gotime.UnixNano, gotime.Add. apply wrap64_id.
    unfold MinInt64, MaxInt32 in *. rewrite lockDuration_eq in *. lia. }
  destruct (Lock_contended ctx2 key md2 w2 _ _ _ _ Hp2 Hr2 Hrow
              (candidate_row_has dl Hc ctx1 key md1 w))
    as (ld & w' & -> & Htab & _ & Hv & Ha & _ & Hact & Hurl).
  { rewrite He. unfold gotime.UnixNano. rewrite wrap64_id; lia. }
  cbn [fst snd newCtx newLock existingLock err].
  repeat split; try done.
  exists ld. repeat split; try done.
  - rewrite Hurl. apply candidate_logsUrl.
  - rewrite Hact, He. rewrite TimeFromUnix_far.
    + unfold gotime.After. apply Z.ltb_lt. lia.
    + rewrite lockDuration_eq in *. lia.
    + unfold MinInt64, MaxInt32 in *. rewrite lockDuration_eq in *. lia.
    + apply is_int64_spec. unfold MinInt64, MaxInt32 in *.
      rewrite lockDuration_eq in *. lia.
Qed.

(** X12.  A released lock is free at once: when a release has gone
    through, a [Lock] for the key whose insert is stamped no earlier
    than the release gets the handle, though the row is still there. *)
Theorem Lock_after_Unlock ctx' l w ctx2 md2 w2 :
  reliable 1 w →
  version_at (config dl) (table w) (key (data l))
  = Some (AttributeValueMemberS (version (data l))) →
  prepared ctx2 md2 →
  reliable 1 w2 →
  table w2 !! key (data l) = table (Unlock dl ctx' l w).2 !! key (data l) →
  MinInt64 ≤ clock w →
  clock_after 1 w ≤ clock_after 3 w2 ≤ MaxInt64 →
  let r := Lock dl ctx2 (key (data l)) md2 w2 in
  is_Some (table w2 !! key (data l))
  ∧ newLock r.1 = Some (granted ctx2 (key (data l)) md2 w2)
  ∧ table r.2 !! key (data l) = Some (candidate dl ctx2 (key (data l)) md2 w2).
Proof.
  intros Hr Hown Hp2 Hr2 Hrow Hmin [Hle Hmax] r. subst r.
  apply still_owned_spec in Hown.
  rewrite Unlock_eq in Hrow by (by apply (reliable_head 0)).
  cbv zeta in Hrow. rewrite Hown in Hrow. cbn [snd table set_table] in Hrow.
  unfold with_expiry in Hrow. rewrite lookup_insert_eq in Hrow.
  split; [by rewrite Hrow|].
  rewrite (Lock_eq dl Hc _ _ _ _ Hp2 (reliable_head _ _ Hr2)).
  assert (insert_allowed dl (table w2) (key (data l))
            (gotime.UnixNano (clock_after 3 w2)) = true) as ->.
  { unfold insert_allowed. rewrite Hrow. cbn [default from_option id eval operand].
    rewrite lookup_insert_eq. apply orb_true_iff. right. cbn.
    apply Z.leb_le.
    pose proof (clock_after_mono 1 w).
    unfold gotime.UnixNano. rewrite !wrap64_id; lia. }
  cbn. by rewrite lookup_insert_eq.
Qed.

(** X13.  A turn of the heartbeat that renews the row sets its expiry
    to the time of the turn plus the heartbeat interval, which is when
    the timer of the next turn fires: at every turn after the first the
    row the handle holds has already run out and is open to the insert
    of another [Lock]. *)
Theorem renewed_lease_ends_at_next_turn l w start' w' :
  heartbeat (heartbeat_timer dl l w).1 = Running start' →
  table w' !! key (data l) = table (heartbeat_timer dl l w).2 !! key (data l) →
  MinInt64 ≤ start' →
  clock (at_renewal start' w') ≤ MaxInt64 →
  expires_at (table (heartbeat_timer dl l w).2) (key (data l))
  = Some (start' + heartbeatInterval)
  ∧ acquirable (table w') (key (data l))
      (gotime.UnixNano (clock (at_renewal start' w'))).
Proof.
  intros Hrun Hrow Hmin Hmax.
  destruct (heartbeat_timer_running dl _ _ _ Hrun) as (start & _ & _ & Heq).
  pose proof (clock_at_renewal start' w') as Hfire.
  apply Z.max_lub_r in Hfire. pose proof heartbeatInterval_eq as Hi.
  assert (He : gotime.UnixNano (gotime.Add start' heartbeatInterval)
               = start' + heartbeatInterval).
  { unfold gotime.UnixNano, gotime.Add. apply wrap64_id.
    lia. }
  rewrite Heq in Hrow |- *. cbn [snd table set_table] in Hrow |- *.
  rewrite He in Hrow |- *. split; [apply expires_at_with_expiry|].
  unfold with_expiry in Hrow. rewrite lookup_insert_eq in Hrow.
  right. eexists _, _. split; [exact Hrow|]. split; [by rewrite lookup_insert_eq|].
  unfold gotime.UnixNano. rewrite wrap64_id; lia.
Qed.


End Sequences.

(** *** In the concrete setting *)

Lemma example_invocation_prepared :
  prepared (H := example.externals) example.invocation None.
Proof. split; [intros lc _; by eexists | by eexists]. Qed.

Lemma example_well_formed :
  well_formed (config example.locker) (table example.A_locks.2).
Proof.
  change (table example.A_locks.2)
    with (<["job-7" := candidate (H := example.externals) example.locker
                         example.background "job-7" None example.start]>
            (∅ : gmap string (gmap string AttributeValue))).
  apply map_Forall_insert_2; [|apply map_Forall_empty].
  do 3 eexists. apply candidate_row_has, example_columns.
Qed.

Lemma table_elapse d w : table (elapse d w) = table w.
Proof. reflexivity. Qed.

(** The invocation asks for A's lock while A holds it: the other rows,
    here none, stay as they are and A's row stays. *)
Lemma Lock_leaves_other_rows_witness :
  (∀ k, k ≠ "job-7" →
        table (Lock (H := example.externals) example.locker example.invocation
                 "job-7" None example.A_locks.2).2 !! k
        = table example.A_locks.2 !! k)
  ∧ (is_Some (table example.A_locks.2 !! "job-7") →
     is_Some (table (Lock (H := example.externals) example.locker
                       example.invocation "job-7" None example.A_locks.2).2
              !! "job-7")).
Proof.
  exact (Lock_leaves_other_rows (H := example.externals) example.locker
           example_columns example.invocation "job-7" None example.A_locks.2).
Defined.

Lemma well_formed_preserved_witness :
  well_formed (config example.locker)
    (table (Lock (H := example.externals) example.locker example.invocation
              "job-7" None example.A_locks.2).2)
  ∧ well_formed (config example.locker)
      (table (heartbeat_timer (H := example.externals) example.locker example.A
                example.A_locks.2).2)
  ∧ well_formed (config example.locker)
      (table (Unlock example.locker example.background example.A
                example.A_locks.2).2).
Proof.
  apply (well_formed_preserved (H := example.externals) example.locker
           example_columns).
  exact example_well_formed.
Defined.

(** A's row, read by the invocation right after A took the lock. *)
Lemma Lock_row_reads_back_witness :
  ∃ ld, (getExistingLock (H := example.externals) example.locker
           example.invocation "job-7" example.A_locks.2).1 = Ok ld
        ∧ Key ld = Key (data example.A)
        ∧ Version ld = Version (data example.A)
        ∧ Acquired ld = Acquired (data example.A)
        ∧ LogsUrl ld = LogsUrl (data example.A)
        ∧ Expires ld
          = dateutils.TimeFromUnix
              (gotime.UnixNano (gotime.Add (clock_after 1 example.start) lockDuration))
        ∧ Active ld = gotime.After (Expires ld) (clock_after 1 example.A_locks.2).
Proof.
  apply (Lock_row_reads_back (H := example.externals) example.locker
           example_columns example.background "job-7" None example.start
           example.A example.invocation example.A_locks.2).
  - exact example_prepared.
  - by apply example_reliable.
  - reflexivity.
  - reflexivity.
  - by apply example_reliable.
Defined.

(** The invocation asks for A's lock 5 seconds after A took it. *)
Lemma second_Lock_is_refused_witness :
  let r := Lock (H := example.externals) example.locker example.invocation
             "job-7" None (elapse (example.seconds 5) example.A_locks.2) in
  newCtx r.1 = ctx_caller ∧ newLock r.1 = None ∧ err r.1 = None
  ∧ table r.2 = table (elapse (example.seconds 5) example.A_locks.2)
  ∧ ∃ ld, existingLock r.1 = Some ld
          ∧ Version ld = Version (data example.A)
          ∧ Acquired ld = Acquired (data example.A)
          ∧ LogsUrl ld = LogsUrl (data example.A)
          ∧ Active ld = true.
Proof.
  apply (second_Lock_is_refused (H := example.externals) example.locker
           example_columns example.background None example.invocation None
           "job-7" example.start
           (elapse (example.seconds 5) example.A_locks.2) example.A).
  - exact example_prepared.
  - exact example_invocation_prepared.
  - by apply example_reliable.
  - by apply example_reliable.
  - reflexivity.
  - rewrite table_elapse. reflexivity.
  - reflexivity.
  - apply Z.leb_le; reflexivity.
  - split; [reflexivity | apply Z.leb_le; reflexivity].
Defined.

(** A releases its lock and the invocation asks for it at that moment. *)
Lemma Lock_after_Unlock_witness :
  let released := (Unlock example.locker example.background example.A
                     example.A_locks.2).2 in
  let r := Lock (H := example.externals) example.locker example.invocation
             (key (data example.A)) None released in
  is_Some (table released !! key (data example.A))
  ∧ newLock r.1
    = Some (granted (H := example.externals) example.invocation
              (key (data example.A)) None released)
  ∧ table r.2 !! key (data example.A)
    = Some (candidate (H := example.externals) example.locker example.invocation
              (key (data example.A)) None released).
Proof.
  apply (Lock_after_Unlock (H := example.externals) example.locker
           example_columns example.background example.A example.A_locks.2
           example.invocation None
           (Unlock example.locker example.background example.A
              example.A_locks.2).2).
  - by apply example_reliable.
  - reflexivity.
  - exact example_invocation_prepared.
  - by apply example_reliable.
  - reflexivity.
  - apply Z.leb_le; reflexivity.
  - split; apply Z.leb_le; reflexivity.
Defined.

(** A's first renewal, 10 seconds after A took the lock, and the moment
    the timer of the second fires. *)
Lemma renewed_lease_ends_at_next_turn_witness :
  let renewed := heartbeat_timer (H := example.externals) example.locker
                   example.A example.A_locks.2 in
  let start' := example.t0 + heartbeatInterval in
  expires_at (table renewed.2) (key (data example.A))
  = Some (start' + heartbeatInterval)
  ∧ acquirable (table renewed.2) (key (data example.A))
      (gotime.UnixNano (clock (at_renewal start' renewed.2))).
Proof.
  apply (renewed_lease_ends_at_next_turn (H := example.externals) example.locker
           example.A example.A_locks.2
           (example.t0 + heartbeatInterval)
           (heartbeat_timer (H := example.externals) example.locker
              example.A example.A_locks.2).2).
  - reflexivity.
  - reflexivity.
  - apply Z.leb_le; reflexivity.
  - apply Z.leb_le; reflexivity.
Defined.


(** ** What a listing returns *)

Section Listings.
Context `{Externals} (dl : distributedLocker).

(** The rows a scan fetches are the rows of the table that pass its
    filter. *)
Lemma elem_of_scanned typ w item :
  item ∈ scanned typ w
  ↔ (∃ k, table w !! k = Some item)
    ∧ match scan_filter typ w with
      | None => true
      | Some c => eval c item
      end = true.
Proof.
  unfold scanned, Scan. rewrite list_elem_of_In, filter_In, <- list_elem_of_In.
  rewrite list_elem_of_fmap. split.
  - intros [([k item'] & -> & Hin%elem_of_map_to_list) Hf]. eauto.
  - intros [[k Hk] Hf]. split; [|done].
    exists (k, item). split; [done|]. by apply elem_of_map_to_list.
Qed.

Lemma scan_filter_listed typ w item k v a e :
  row_has (config dl) item k v a e →
  match scan_filter typ w with
  | None => true
  | Some c => eval c item
  end = listed typ (gotime.UnixNano (clock_after 1 w)) e.
Proof.
  intros (_ & _ & _ & He & _). destruct typ; cbn; by rewrite ?He.
Qed.

(** Decoding rows the lock could have written: every one gets its
    entry, under its key, and nothing else comes in. *)
Lemma transform_rows items :
  Forall (λ item, ∃ k v a e, row_has (config dl) item k v a e) items →
  ∀ idx out w,
    ∃ m w',
      collections.TransformSliceToMapWithErr_from
        (λ (_ : nat) sliceValue,
           let* parsed := parseLockData dl sliceValue in
           match parsed with
           | Err e => ret (Err e)
           | Ok lock => ret (Ok (Key lock, lock))
           end)
        idx items out w
      = (Ok m, w')
      ∧ (∀ k ld, m !! k = Some ld →
           out !! k = Some ld
           ∨ ∃ item v a e,
               item ∈ items ∧ row_has (config dl) item k v a e
               ∧ Key ld = k ∧ Version ld = v
               ∧ Acquired ld = dateutils.TimeFromUnix a
               ∧ Expires ld = dateutils.TimeFromUnix e)
      ∧ (∀ k, is_Some (out !! k) → is_Some (m !! k))
      ∧ (∀ item k v a e,
           item ∈ items → row_has (config dl) item k v a e → is_Some (m !! k)).
Proof.
  induction 1 as [|item items (k & v & a & e & Hrow) _ IH]; intros idx out w.
  - exists out, w. split; [done|]. split; [by left|]. split; [done|].
    intros ? ? ? ? ? Hin. by apply elem_of_nil in Hin.
  - pose proof Hrow as (Hk & Hv & Ha & He & Hia & Hie).
    destruct (parseLockData_well_formed dl k v a e item w Hk Hv Ha Hia He Hie)
      as (ld & Hparse & HK & HV & HA & HE & _).
    cbn [collections.TransformSliceToMapWithErr_from].
    rewrite (bind_run _ _ _ (Ok (Key ld, ld)) (after_read w));
      [|by rewrite (bind_run _ _ _ _ _ Hparse)].
    destruct (IH (S idx) (<[Key ld := ld]> out) (after_read w))
      as (m & w' & -> & Hsound & Hkeep & Hall).
    exists m, w'. split; [done|]. rewrite HK in *. split; [|split].
    + intros k' ld' Hm. destruct (Hsound k' ld' Hm) as [Hout|Hrest].
      * destruct (decide (k' = k)) as [->|Hne].
        -- rewrite lookup_insert_eq in Hout. injection Hout as <-.
           right. exists item, v, a, e. split; [left|done].
        -- rewrite lookup_insert_ne in Hout by done. by left.
      * right. destruct Hrest as (item' & v' & a' & e' & Hin & Hrest).
        exists item', v', a', e'. split; [by right|done].
    + intros k' Hout. apply Hkeep.
      destruct (decide (k' = k)) as [->|Hne].
      * rewrite lookup_insert_eq. by eexists.
      * by rewrite lookup_insert_ne.
    + intros item' k' v' a' e' [->|Hin]%elem_of_cons Hrow'.
      * destruct Hrow' as (Hk' & _). rewrite Hk in Hk'. injection Hk' as <-.
        apply Hkeep. rewrite lookup_insert_eq. by eexists.
      * by eapply Hall.
Qed.

(** X15.  On a table in which every row is one the lock could have
    written, a listing that the transport delivers returns a map with
    one entry per row it asks for, under the row's key: all rows for
    [GetAllLocks], the rows whose expiry is after the clock reading of
    the call for [GetActiveLocks], the others for [GetExpiredLocks].
    An entry has the version of its row and the acquisition and expiry
    times read from it. *)
Theorem getLocks_lists_the_rows ctx typ w :
  reliable (S (length (page_sizes w))) w →
  well_formed (config dl) (table w) →
  ∃ m, (getLocks dl ctx typ w).1 = Ok m
       ∧ (∀ k item v a e,
            table w !! k = Some item →
            row_has (config dl) item k v a e →
            (is_Some (m !! k)
             ↔ listed typ (gotime.UnixNano (clock_after 1 w)) e = true))
       ∧ (∀ k ld,
            m !! k = Some ld →
            ∃ item v a e,
              table w !! k = Some item
              ∧ row_has (config dl) item k v a e
              ∧ Key ld = k ∧ Version ld = v
              ∧ Acquired ld = dateutils.TimeFromUnix a
              ∧ Expires ld = dateutils.TimeFromUnix e).
Proof.
  intros Hr Hwf. rewrite (getLocks_eq dl _ _ _ Hr).
  unfold collections.TransformSliceToMapWithErr.
  assert (Hrows : Forall (λ item, ∃ k v a e, row_has (config dl) item k v a e)
                    (scanned typ w)).
  { apply Forall_forall. intros item [[k Hk] _]%elem_of_scanned.
    exists k. by apply (Hwf k item). }
  destruct (transform_rows _ Hrows 0%nat ∅ (after_scan typ w))
    as (m & w' & -> & Hsound & _ & Hall).
  assert (Hfrom : ∀ k ld, m !! k = Some ld →
            ∃ item v a e,
              table w !! k = Some item ∧ row_has (config dl) item k v a e
              ∧ item ∈ scanned typ w
              ∧ Key ld = k ∧ Version ld = v
              ∧ Acquired ld = dateutils.TimeFromUnix a
              ∧ Expires ld = dateutils.TimeFromUnix e).
  { intros k ld Hm.
    destruct (Hsound k ld Hm) as [Hout|(item & v & a & e & Hin & Hrow & Hld)];
      [by rewrite lookup_empty in Hout|].
    exists item, v, a, e. split; [|done].
    pose proof Hin as [[k0 Hk0] _]%elem_of_scanned.
    destruct (Hwf k0 item Hk0) as (v0 & a0 & e0 & Hkey0 & _).
    destruct Hrow as (Hkey & _). rewrite Hkey in Hkey0.
    by injection Hkey0 as ->. }
  exists m. split; [done|]. split.
  - intros k item v a e Hk Hrow.
    rewrite <- (scan_filter_listed typ w item k v a e Hrow). split.
    + intros [ld Hm].
      destruct (Hfrom k ld Hm) as (item' & _ & _ & _ & Hk' & _ & Hin & _).
      rewrite Hk in Hk'. injection Hk' as <-.
      by apply elem_of_scanned in Hin as [_ Hf].
    + intros Hf. apply (Hall item k v a e); [|done].
      apply elem_of_scanned. eauto.
  - intros k ld Hm.
    destruct (Hfrom k ld Hm) as (item & v & a & e & ? & ? & _ & ?). eauto 10.
Qed.

(** *** Pages *)

Lemma nextPages_fault pages :
  ∀ n items w msg,
    (n < length pages)%nat →
    reliable n w →
    faults w !! n = Some (Some msg) →
    (nextPages pages items w).1 = Err (Foreign msg).
Proof.
  induction pages as [|page pages IH]; intros n items w msg Hn Hr Hf;
    [cbn in Hn; lia|].
  cbn [nextPages]. destruct n as [|n].
  - unfold bind, call_read. rewrite <- head_lookup in Hf. by rewrite Hf.
  - rewrite (bind_run _ _ _ _ _ (call_read_reliable _ _ (reliable_head _ _ Hr))).
    apply (IH n); [cbn in Hn; lia|by apply reliable_tail|].
    cbn [faults set_faults]. by rewrite lookup_tail.
Qed.

(** X16.  A transport fault on any page of the scan fails the listing
    with that fault: the rows of the pages fetched before it are not
    returned. *)
Theorem getLocks_page_fault ctx typ w n msg :
  (n ≤ length (page_sizes w))%nat →
  reliable n w →
  faults w !! n = Some (Some msg) →
  (getLocks dl ctx typ w).1 = Err (Foreign msg).
Proof.
  intros Hn Hr Hf. unfold getLocks.
  destruct typ; unfold bind, ret; rewrite ?time_Now_eq.
  all: cbn [page_sizes table after_read set_delays set_clock].
  all: match goal with
       | |- context [nextPages ?pages ?items ?w'] =>
           pose proof (nextPages_fault pages n items w' msg) as Hfault;
           rewrite length_paginate in Hfault;
           specialize (Hfault ltac:(lia) Hr Hf);
           destruct (nextPages pages items w') as [fetched w'']
       end.
  all: cbn [fst] in Hfault; by subst fetched.
Qed.

Lemma parseLockData_clock item w1 w2 :
  clock w1 = clock w2 →
  delays w1 = delays w2 →
  (parseLockData dl item w1).1 = (parseLockData dl item w2).1
  ∧ clock (parseLockData dl item w1).2 = clock (parseLockData dl item w2).2
  ∧ delays (parseLockData dl item w1).2 = delays (parseLockData dl item w2).2.
Proof.
  intros Hclock Hdelays. unfold parseLockData.
  repeat (case_match; [|done]).
  unfold bind, ret, time_Now. cbn. by rewrite Hclock, Hdelays.
Qed.

(** The rows decode to the same map in two worlds with one clock. *)
Lemma transform_clock items :
  ∀ idx out w1 w2,
    clock w1 = clock w2 →
    delays w1 = delays w2 →
    (collections.TransformSliceToMapWithErr_from
       (λ (_ : nat) sliceValue,
          let* parsed := parseLockData dl sliceValue in
          match parsed with
          | Err e => ret (Err e)
          | Ok lock => ret (Ok (Key lock, lock))
          end)
       idx items out w1).1
    = (collections.TransformSliceToMapWithErr_from
         (λ (_ : nat) sliceValue,
            let* parsed := parseLockData dl sliceValue in
            match parsed with
            | Err e => ret (Err e)
            | Ok lock => ret (Ok (Key lock, lock))
            end)
         idx items out w2).1.
Proof.
  induction items as [|item items IH]; intros idx out w1 w2 Hclock Hdelays;
    [done|].
  cbn [collections.TransformSliceToMapWithErr_from].
  destruct (parseLockData_clock item w1 w2 Hclock Hdelays) as (Hr & Hc' & Hd').
  unfold bind at 1 2 4 5.
  destruct (parseLockData dl item w1) as [r1 w1'],
           (parseLockData dl item w2) as [r2 w2'].
  cbn [fst snd] in Hr, Hc', Hd'. subst r2.
  destruct r1 as [ld|e]; cbn [ret]; [|done].
  by apply IH.
Qed.

(** X17.  How the service cuts the scan into pages does not show in a
    listing that the transport delivers. *)
Theorem getLocks_whatever_the_pages ctx typ w sizes :
  reliable (S (length (page_sizes w))) w →
  reliable (S (length sizes)) w →
  (getLocks dl ctx typ
     (mkWorld (clock w) (delays w) (faults w) (table w) sizes (lockCounterMap w))).1
  = (getLocks dl ctx typ w).1.
Proof.
  intros Hr Hr'.
  rewrite (getLocks_eq dl ctx typ w Hr).
  rewrite (getLocks_eq dl ctx typ (mkWorld _ _ _ _ sizes _) Hr').
  unfold collections.TransformSliceToMapWithErr.
  change (scanned typ (mkWorld (clock w) (delays w) (faults w) (table w) sizes
                         (lockCounterMap w)))
    with (scanned typ w).
  apply transform_clock; by destruct typ.
Qed.

End Listings.

Lemma getLocks_lists_the_rows_witness :
  ∃ m, (getLocks (H := example.externals) example.locker example.background
          active_ example.A_locks.2).1 = Ok m
       ∧ (∀ k item v a e,
            table example.A_locks.2 !! k = Some item →
            row_has (config example.locker) item k v a e →
            (is_Some (m !! k)
             ↔ listed active_ (gotime.UnixNano (clock_after 1 example.A_locks.2)) e
               = true))
       ∧ (∀ k ld,
            m !! k = Some ld →
            ∃ item v a e,
              table example.A_locks.2 !! k = Some item
              ∧ row_has (config example.locker) item k v a e
              ∧ Key ld = k ∧ Version ld = v
              ∧ Acquired ld = dateutils.TimeFromUnix a
              ∧ Expires ld = dateutils.TimeFromUnix e).
Proof.
  apply (getLocks_lists_the_rows (H := example.externals) example.locker
           example.background active_ example.A_locks.2).
  - by apply example_reliable.
  - exact example_well_formed.
Defined.

(** The listing of A's lock when the only page is lost on the way. *)
Lemma getLocks_page_fault_witness :
  (getLocks (H := example.externals) example.locker example.background all
     (set_faults [Some "RequestTimeout"] example.A_locks.2)).1
  = Err (Foreign "RequestTimeout").
Proof.
  apply (getLocks_page_fault (H := example.externals) example.locker
           example.background all
           (set_faults [Some "RequestTimeout"] example.A_locks.2) 0%nat
           "RequestTimeout").
  - apply Nat.le_0_l.
  - apply Forall_nil_2.
  - reflexivity.
Defined.

(** The listing of A's lock, fetched in one page or in three. *)
Lemma getLocks_whatever_the_pages_witness :
  (getLocks (H := example.externals) example.locker example.background active_
     (mkWorld (clock example.A_locks.2) (delays example.A_locks.2)
        (faults example.A_locks.2) (table example.A_locks.2) [1; 0]%nat
        (lockCounterMap example.A_locks.2))).1
  = (getLocks (H := example.externals) example.locker example.background active_
       example.A_locks.2).1.
Proof.
  apply (getLocks_whatever_the_pages (H := example.externals) example.locker
           example.background active_ example.A_locks.2 [1; 0]%nat).
  - by apply example_reliable.
  - by apply example_reliable.
Defined.

(** ** [collections]: transforming maps and slices *)

Section TransformMap.
Context {A V : Type} (f : string → A → Result (string * V)).

Lemma TransformMapWithErr_from_spec l r :
  match collections.TransformMapWithErr_from f l r with
  | Err e => ∃ k v, (k, v) ∈ l ∧ f k v = Err e
  | Ok m =>
      (∀ k v, (k, v) ∈ l → ∃ kv, f k v = Ok kv ∧ is_Some (m !! kv.1))
      ∧ (∀ k' v', m !! k' = Some v' →
           r !! k' = Some v' ∨ ∃ k v, (k, v) ∈ l ∧ f k v = Ok (k', v'))
      ∧ (∀ k', is_Some (r !! k') → is_Some (m !! k'))
  end.
Proof.
  revert r. induction l as [|[k v] l IH]; intros r; cbn.
  - split; [|split].
    + intros ? ? Hin. by apply elem_of_nil in Hin.
    + by left.
    + done.
  - destruct (f k v) as [[newK newV]|e] eqn:Hf.
    + specialize (IH (<[newK := newV]> r)).
      destruct (collections.TransformMapWithErr_from f l _) as [m|e].
      * destruct IH as (Hall & Hsound & Hkeep). split; [|split].
        -- intros k0 v0 [[= -> ->]|Hin]%elem_of_cons; [|by apply Hall].
           exists (newK, newV). split; [done|].
           apply Hkeep. rewrite lookup_insert_eq. by eexists.
        -- intros k' v' Hm. destruct (Hsound k' v' Hm) as [Hr|(k0 & v0 & Hin & Hf0)].
           ++ destruct (decide (k' = newK)) as [->|Hne].
              ** rewrite lookup_insert_eq in Hr. injection Hr as <-.
                 right. exists k, v. split; [left|done].
              ** rewrite lookup_insert_ne in Hr by done. by left.
           ++ right. exists k0, v0. split; [by right|done].
        -- intros k' Hr. apply Hkeep.
           destruct (decide (k' = newK)) as [->|Hne].
           ++ rewrite lookup_insert_eq. by eexists.
           ++ by rewrite lookup_insert_ne.
      * destruct IH as (k0 & v0 & Hin & Hf0). exists k0, v0. split; [by right|done].
    + exists k, v. split; [left|done].
Qed.

(** X18.  [TransformMapWithErr] fails with the error of one of the
    entries, or it returns a map that holds a result for every entry and
    nothing but results of entries. *)
Theorem TransformMapWithErr_spec (in_ : gmap string A) :
  match collections.TransformMapWithErr in_ f with
  | Err e => ∃ k v, in_ !! k = Some v ∧ f k v = Err e
  | Ok r =>
      (∀ k v, in_ !! k = Some v → ∃ kv, f k v = Ok kv ∧ is_Some (r !! kv.1))
      ∧ (∀ k' v', r !! k' = Some v' →
           ∃ k v, in_ !! k = Some v ∧ f k v = Ok (k', v'))
  end.
Proof.
  unfold collections.TransformMapWithErr.
  pose proof (TransformMapWithErr_from_spec (map_to_list in_) ∅) as Hspec.
  destruct (collections.TransformMapWithErr_from f _ _) as [r|e].
  - destruct Hspec as (Hall & Hsound & _). split.
    + intros k v Hin. apply Hall. by apply elem_of_map_to_list.
    + intros k' v' Hr. destruct (Hsound k' v' Hr) as [Hempty|(k & v & Hin & Hf)].
      * by rewrite lookup_empty in Hempty.
      * exists k, v. split; [by apply elem_of_map_to_list|done].
  - destruct Hspec as (k & v & Hin & Hf).
    exists k, v. split; [by apply elem_of_map_to_list|done].
Qed.

End TransformMap.

Section HandleMetadata.
Context `{Externals} (dl : distributedLocker).



End HandleMetadata.


(** ** [collections]: slices *)

Section SliceFacts.
Context {T : Type} `{Countable T}.

Lemma elem_of_store_all (l : list T) (m : gset T) v :
  v ∈ collections.store_all l m ↔ v ∈ l ∨ v ∈ m.
Proof.
  unfold collections.store_all. revert m.
  induction l as [|x l IH]; intros m; cbn.
  - rewrite elem_of_nil. tauto.
  - rewrite IH, elem_of_cons, elem_of_union, elem_of_singleton. tauto.
Qed.

Lemma MapKeys_spec (m : gset T) :
  NoDup (collections.MapKeys m) ∧ ∀ v, v ∈ collections.MapKeys m ↔ v ∈ m.
Proof.
  unfold collections.MapKeys. split; [apply NoDup_elements|].
  intros v. apply elem_of_elements.
Qed.

(** X20.  [SliceUnique] returns nil for nil; otherwise a slice that
    holds every value of the input, each once. *)
Theorem SliceUnique_spec :
  collections.SliceUnique (T := T) None = None
  ∧ ∀ l : list T, ∃ out,
      collections.SliceUnique (Some l) = Some out
      ∧ NoDup out ∧ ∀ v, v ∈ out ↔ v ∈ l.
Proof.
  split; [done|]. intros l. eexists. split; [done|].
  destruct (MapKeys_spec (collections.store_all l ∅)) as [Hnd Hin].
  split; [done|]. intros v. rewrite Hin, elem_of_store_all.
  pose proof (not_elem_of_empty (C := gset T) v). tauto.
Qed.

(** X21.  The loops of [UnionUnique] and [IntersectionUnique] never
    take a turn: [UnionUnique] returns the empty slice whatever it is
    given, and [IntersectionUnique] of two slices or more returns the
    values of the first, each once, whatever the others hold.  Neither
    panics. *)
Theorem UnionUnique_and_IntersectionUnique
    (slices : list (option (list T))) (first second : option (list T))
    (rest : list (option (list T))) :
  collections.UnionUnique slices = collections.Returns (Some [])
  ∧ ∃ out,
      collections.IntersectionUnique (first :: second :: rest)
      = collections.Returns (Some out)
      ∧ NoDup out ∧ ∀ v, v ∈ out ↔ v ∈ default [] first.
Proof.
  split.
  - destruct slices; cbn; [done|].
    unfold collections.MapKeys. by rewrite elements_empty.
  - eexists. split; [reflexivity|].
    destruct (MapKeys_spec (collections.store_all (default [] first) ∅))
      as [Hnd Hin].
    split; [done|]. intros v. rewrite Hin, elem_of_store_all.
    pose proof (not_elem_of_empty (C := gset T) v). tauto.
Qed.

Lemma SliceDiff_from (bMap : gset T) (l diff : list T) :
  foldl (λ diff v, if negb (collections.Has v bMap) then diff ++ [v] else diff)
        diff l
  = diff ++ filter (λ v, v ∉ bMap) l.
Proof.
  revert diff. induction l as [|x l IH]; intros diff; cbn [foldl].
  - by rewrite filter_nil, app_nil_r.
  - rewrite IH. unfold collections.Has. rewrite filter_cons.
    case_bool_decide; cbn [negb].
    + by rewrite decide_False by tauto.
    + rewrite decide_True by done. by rewrite <- app_assoc.
Qed.

(** X22.  [SliceDiff a b] is [a] without the values that occur in [b]:
    what stays keeps its order and its number of occurrences.  A nil
    slice counts as empty, and the result is never nil. *)
Theorem SliceDiff_filter (a b : option (list T)) :
  collections.SliceDiff a b
  = filter (λ v, v ∉ default [] b) (default [] a).
Proof.
  unfold collections.SliceDiff, collections.NewHashMap.
  rewrite SliceDiff_from. cbn [app].
  apply list_filter_iff. intros v. rewrite elem_of_store_all.
  pose proof (not_elem_of_empty (C := gset T) v). tauto.
Qed.

(** X23.  [SliceDiffUnique a b] holds the values of [a] that do not
    occur in [b], each once. *)
Theorem SliceDiffUnique_spec (a b : option (list T)) :
  NoDup (collections.SliceDiffUnique a b)
  ∧ ∀ v, v ∈ collections.SliceDiffUnique a b
         ↔ v ∈ default [] a ∧ v ∉ default [] b.
Proof.
  unfold collections.SliceDiffUnique, collections.NewHashMap.
  match goal with
  | |- context [collections.MapKeys ?m] =>
      destruct (MapKeys_spec m) as [Hnd Hin]
  end.
  split; [done|]. intros v. rewrite Hin. clear Hnd Hin.
  assert (Hfold : ∀ l (aMap : gset T),
            v ∈ foldl (λ (aMap : gset T) v,
                         if negb (collections.Has v
                                    (collections.store_all (default [] b) ∅))
                         then {[v]} ∪ aMap else aMap) aMap l
            ↔ (v ∈ l ∧ v ∉ default [] b) ∨ v ∈ aMap).
  { induction l as [|x l IH]; intros aMap; cbn.
    - rewrite elem_of_nil. tauto.
    - rewrite IH, elem_of_cons. unfold collections.Has.
      case_bool_decide as Hx; cbn.
      + apply elem_of_store_all in Hx. destruct Hx as [Hx|Hx].
        * split; [tauto|]. intros [[[-> | ?] ?]|?]; tauto.
        * by apply not_elem_of_empty in Hx.
      + rewrite elem_of_store_all in Hx.
        rewrite elem_of_union, elem_of_singleton.
        split; [|tauto]. intros [?|[->|?]]; tauto. }
  rewrite Hfold. pose proof (not_elem_of_empty (C := gset T) v). tauto.
Qed.

End SliceFacts.

Section SliceEqualFacts.
Context {A : Type} (comparisonFunc : A → A → bool).

Lemma SliceEqual_from_Forall2 (in1 in2 : list A) :
  length in1 = length in2 →
  collections.SliceEqual_from comparisonFunc in1 in2 = true
  ↔ Forall2 (λ val1 val2, comparisonFunc val1 val2 = true) in1 in2.
Proof.
  revert in2. induction in1 as [|x in1 IH]; intros [|y in2] Hlen; try done; cbn.
  injection Hlen as Hlen. rewrite Forall2_cons.
  destruct (comparisonFunc x y); cbn.
  - rewrite (IH _ Hlen). tauto.
  - split; [done|]. by intros [? _].
Qed.

(** X24.  [SliceEqual] holds of two nil slices, and of two slices that
    are not nil, have one length and are pairwise equal by the
    comparison function; it does not hold of a nil slice and an empty
    one. *)
Theorem SliceEqual_iff (in1 in2 : option (list A)) :
  collections.SliceEqual in1 in2 comparisonFunc = true
  ↔ match in1, in2 with
    | None, None => True
    | Some l1, Some l2 =>
        Forall2 (λ val1 val2, comparisonFunc val1 val2 = true) l1 l2
    | _, _ => False
    end.
Proof.
  destruct in1 as [l1|], in2 as [l2|]; cbn; try done.
  destruct (length l1 =? length l2)%nat eqn:Hlen; cbn.
  - apply Nat.eqb_eq in Hlen. by apply SliceEqual_from_Forall2.
  - apply Nat.eqb_neq in Hlen. split; [done|].
    by intros Hall%Forall2_length.
Qed.

End SliceEqualFacts.

Section TransformSlice.
Context {In Out : Type} (f : In → Result Out).

Lemma TransformSliceWithErr_from_spec (l : list In) (out : list Out) :
  match collections.TransformSliceWithErr_from f l out with
  | Ok r => ∃ o, r = Some (out ++ o) ∧ Forall2 (λ v t, f v = Ok t) l o
  | Err e =>
      ∃ before v after,
        l = before ++ v :: after
        ∧ Forall (λ v, ∃ t, f v = Ok t) before ∧ f v = Err e
  end.
Proof.
  revert out. induction l as [|x l IH]; intros out; cbn.
  - exists []. by rewrite app_nil_r.
  - destruct (f x) as [t|e] eqn:Hx.
    + specialize (IH (out ++ [t])).
      destruct (collections.TransformSliceWithErr_from f l _) as [r|e].
      * destruct IH as (o & -> & Hall). exists (t :: o).
        rewrite <- app_assoc. split; [done|]. by constructor.
      * destruct IH as (before & v & after & -> & Hall & Hv).
        exists (x :: before), v, after. split; [done|].
        split; [|done]. constructor; [by eexists|done].
    + exists [], x, l. by repeat split.
Qed.

(** X25.  [TransformSliceWithErr] returns nil for nil.  Otherwise it
    returns the transformed values in the order of the input, or, when
    the function fails on a value, the error of the first such value
    and no slice. *)
Theorem TransformSliceWithErr_spec :
  collections.TransformSliceWithErr None f = Ok None
  ∧ ∀ l,
      match collections.TransformSliceWithErr (Some l) f with
      | Ok r => ∃ o, r = Some o ∧ Forall2 (λ v t, f v = Ok t) l o
      | Err e =>
          ∃ before v after,
            l = before ++ v :: after
            ∧ Forall (λ v, ∃ t, f v = Ok t) before ∧ f v = Err e
      end.
Proof.
  split; [done|]. intros l. apply (TransformSliceWithErr_from_spec l []).
Qed.

End TransformSlice.

(** ** Maps: [collections.MergeMaps] and [gensync.Map] *)

Section MapFolds.
Context {K : Type} `{Countable K} {V : Type}.

(** Storing the entries of a map one after the other. *)
Lemma foldl_insert_lookup (l : list (K * V)) (out : gmap K V) k :
  NoDup l.*1 →
  foldl (λ out kv, <[kv.1 := kv.2]> out) out l !! k
  = match (list_to_map l : gmap K V) !! k with
    | Some v => Some v
    | None => out !! k
    end.
Proof.
  revert out. induction l as [|[k0 v0] l IH]; intros out Hnd; cbn.
  - by rewrite lookup_empty.
  - apply NoDup_cons in Hnd as [Hk0 Hnd]. rewrite (IH _ Hnd).
    destruct (decide (k = k0)) as [->|Hne].
    + rewrite !lookup_insert_eq.
      by rewrite (not_elem_of_list_to_map_1 _ _ Hk0).
    + by rewrite !lookup_insert_ne.
Qed.

Lemma foldl_insert_map_to_list (m out : gmap K V) :
  foldl (λ out kv, <[kv.1 := kv.2]> out) out (map_to_list m) = m ∪ out.
Proof.
  apply map_eq. intros k.
  rewrite foldl_insert_lookup by apply NoDup_fst_map_to_list.
  rewrite list_to_map_to_list, lookup_union.
  by destruct (m !! k), (out !! k).
Qed.





Lemma union_list_snoc (maps : list (gmap K V)) (m : gmap K V) :
  ⋃ (maps ++ [m]) = ⋃ maps ∪ m.
Proof.
  induction maps as [|m' maps IH]; cbn.
  - by rewrite (left_id_L ∅ (∪)), (right_id_L ∅ (∪)).
  - by rewrite IH, (assoc_L (∪)).
Qed.

End MapFolds.

(** X27.  [MergeMaps] returns nil for no map.  Otherwise a key has the
    value of the last map that holds it: the result is the union of the
    maps, a later map going before an earlier one. *)
Theorem MergeMaps_spec {V : Type} (maps : list (gmap string V)) :
  collections.MergeMaps maps
  = match maps with
    | [] => None
    | _ => Some (⋃ reverse maps)
    end.
Proof.
  unfold collections.MergeMaps. destruct maps as [|m maps]; [done|].
  f_equal. generalize (m :: maps). clear m maps. intros maps.
  rewrite <- (right_id_L ∅ (∪) (⋃ reverse maps)).
  generalize (∅ : gmap string V).
  induction maps as [|m maps IH]; intros out; cbn [foldl].
  - rewrite reverse_nil. cbn. by rewrite (left_id_L ∅ (∪)).
  - rewrite foldl_insert_map_to_list, IH, reverse_cons, union_list_snoc.
    by rewrite (assoc_L (∪)).
Qed.

(** X28.  [LoadOrStore] never replaces a value: it reports whether the
    key was there, leaves the map as it was when it was, touches no other
    key, and afterwards the key holds the value it returned, which any
    further [LoadOrStore] for that key returns again. *)
Theorem LoadOrStore_keeps_first {V : Type} key (value value' : V) m :
  let stored := gensync.LoadOrStore key value m in
  let actual := stored.1.1 in
  let loaded := stored.1.2 in
  stored.2 !! key = Some actual
  ∧ (loaded = true ↔ is_Some (m !! key))
  ∧ (loaded = true → stored.2 = m)
  ∧ (loaded = false → actual = value)
  ∧ (∀ k, k ≠ key → stored.2 !! k = m !! k)
  ∧ gensync.LoadOrStore key value' stored.2 = (actual, true, stored.2).
Proof.
  cbv zeta. unfold gensync.LoadOrStore.
  destruct (m !! key) as [v|] eqn:Hm; cbn.
  - rewrite Hm. split; [done|]. split; [by split; [eexists|]|]. done.
  - rewrite lookup_insert_eq. split; [done|].
    split; [split; [done|by intros [? ?]]|].
    split; [done|]. split; [done|]. split; [|done].
    intros k Hk. by rewrite lookup_insert_ne.
Qed.
